(** * GitHub Issue Finder: the logic of [src/app/page.tsx]

    The component [GitHubIssueFinder] builds a label query, fetches matching
    issues, groups them by repository in a plain object, ranks the groups and
    shows them ten per page.  This file embeds that logic and the fragment of
    ECMAScript it runs on, and proves the properties of the specification.

    Layout: [JS] holds the language primitives the component calls
    (strings, arrays, ordinary objects and the realm's [Object.prototype]);
    [Finder] holds the component itself; the lemmas follow. *)

From Stdlib Require Import List NArith ZArith String Ascii Bool Lia.
From Stdlib Require Import Sorted Permutation.
Import ListNotations.

Set Implicit Arguments.

(* ================================================================== *)
(** ** The ECMAScript fragment *)
(* ================================================================== *)

Module JS.

(** A JavaScript string is a sequence of UTF-16 code units. *)
Definition code_unit := N.
Definition jsstring := list code_unit.

(** String literals of the source, written as Rocq strings. *)
Definition u16 (s : string) : jsstring :=
  List.map N_of_ascii (list_ascii_of_string s).

Fixpoint str_eqb (a b : jsstring) : bool :=
  match a, b with
  | [], [] => true
  | x :: a', y :: b' => N.eqb x y && str_eqb a' b'
  | _, _ => false
  end.

(** [Boolean(s)] for a string: the empty string is the only falsy one. *)
Definition truthy_string (s : jsstring) : bool :=
  match s with [] => false | _ :: _ => true end.

(** WhiteSpace and LineTerminator code points, the ones
    [String.prototype.trim] strips. *)
Definition isWhiteSpace (c : code_unit) : bool :=
  (N.eqb c 9 || N.eqb c 10 || N.eqb c 11 || N.eqb c 12 || N.eqb c 13
   || N.eqb c 32 || N.eqb c 160 || N.eqb c 5760
   || (N.leb 8192 c && N.leb c 8202)
   || N.eqb c 8232 || N.eqb c 8233 || N.eqb c 8239 || N.eqb c 8287
   || N.eqb c 12288 || N.eqb c 65279)%bool.

Fixpoint trimStart (s : jsstring) : jsstring :=
  match s with
  | c :: s' => if isWhiteSpace c then trimStart s' else s
  | [] => []
  end.

Definition trimEnd (s : jsstring) : jsstring := rev (trimStart (rev s)).

(** [s.trim()] *)
Definition trim (s : jsstring) : jsstring := trimEnd (trimStart s).

(** [s.split(sep)] for a separator of one code unit.  The result always
    has at least one segment: [''.split(',')] is [['']]. *)
Fixpoint split (sep : code_unit) (s : jsstring) : list jsstring :=
  match s with
  | [] => [[]]
  | c :: s' =>
      if N.eqb c sep then [] :: split sep s'
      else match split sep s' with
           | seg :: segs => (c :: seg) :: segs
           | [] => [[c]]
           end
  end.

(** [a.join(sep)] on an array of strings. *)
Fixpoint join (sep : jsstring) (a : list jsstring) : jsstring :=
  match a with
  | [] => []
  | [x] => x
  | x :: rest => x ++ sep ++ join sep rest
  end.

(** Relative index of [Array.prototype.slice]: negative counts from the
    end, and the result is clamped to [0, len]. *)
Definition relativeIndex (len k : Z) : Z :=
  if (k <? 0)%Z then Z.max (len + k) 0 else Z.min k len.

(** [a.slice(start, end)]; [None] for an omitted [end]. *)
Definition slice {A : Type} (a : list A) (start : Z) (stop : option Z) : list A :=
  let len := Z.of_nat (List.length a) in
  let from := relativeIndex len start in
  let upto := match stop with
              | None => len
              | Some e => relativeIndex len e
              end in
  firstn (Z.to_nat (upto - from)) (skipn (Z.to_nat from) a).

Fixpoint startsWith (pat s : jsstring) : bool :=
  match pat, s with
  | [], _ => true
  | p :: pat', c :: s' => N.eqb p c && startsWith pat' s'
  | _ :: _, [] => false
  end.

(** [s.replace(pat, rep)] with a string pattern: only the first occurrence
    is replaced ([rep] holds no [$] pattern in this program). *)
Fixpoint replace (pat rep s : jsstring) {struct s} : jsstring :=
  if startsWith pat s then rep ++ skipn (List.length pat) s
  else match s with
       | [] => []
       | c :: s' => c :: replace pat rep s'
       end.

(** [s.includes(pat)] *)
Fixpoint includes (pat s : jsstring) {struct s} : bool :=
  startsWith pat s ||
  match s with
  | [] => false
  | _ :: s' => includes pat s'
  end.

(** [Array.prototype.sort(cmp)].  Since ES2019 the sort is stable, and for a
    consistent comparator the result is then determined; it is computed here
    by insertion from the right, where an element moves past exactly the
    elements [y] with [cmp x y > 0]. *)
Section Sort.
Variable A : Type.
Variable cmp : A -> A -> Z.

Fixpoint sort_insert (x : A) (l : list A) : list A :=
  match l with
  | [] => [x]
  | y :: l' => if (cmp x y >? 0)%Z then y :: sort_insert x l' else x :: l
  end.

Fixpoint sort (l : list A) : list A :=
  match l with
  | [] => []
  | x :: l' => sort_insert x (sort l')
  end.
End Sort.

(** [Math.ceil(n / d)] for integers [n >= 0], [d > 0] small enough for the
    quotient of doubles to round on the right side of every integer (array
    lengths are below 2^32): the least integer not below [n / d]. *)
Definition Math_ceil_div (n d : Z) : Z := (- ((- n) / d))%Z.

(** Single characters of the source, as code units. *)
Definition ch (a : ascii) : code_unit := N_of_ascii a.

(** *** Ordinary objects used as maps

    An object literal [{}] has %Object.prototype% as its prototype.  Its own
    properties are kept here in creation order; a property read that finds no
    own property continues on the prototype. *)

(** The built-in objects a read on %Object.prototype% can return: the eleven
    functions it holds (ECMA-262 with Annex B, as browsers implement it) and,
    through the [__proto__] accessor, the prototype itself. *)
Inductive builtin : Type :=
| ObjectPrototype
| ObjectConstructor
| Fn_hasOwnProperty
| Fn_isPrototypeOf
| Fn_propertyIsEnumerable
| Fn_toLocaleString
| Fn_toString
| Fn_valueOf
| Fn_defineGetter
| Fn_defineSetter
| Fn_lookupGetter
| Fn_lookupSetter.

Definition builtin_eqb (a b : builtin) : bool :=
  match a, b with
  | ObjectPrototype, ObjectPrototype
  | ObjectConstructor, ObjectConstructor
  | Fn_hasOwnProperty, Fn_hasOwnProperty
  | Fn_isPrototypeOf, Fn_isPrototypeOf
  | Fn_propertyIsEnumerable, Fn_propertyIsEnumerable
  | Fn_toLocaleString, Fn_toLocaleString
  | Fn_toString, Fn_toString
  | Fn_valueOf, Fn_valueOf
  | Fn_defineGetter, Fn_defineGetter
  | Fn_defineSetter, Fn_defineSetter
  | Fn_lookupGetter, Fn_lookupGetter
  | Fn_lookupSetter, Fn_lookupSetter => true
  | _, _ => false
  end.

(** The properties of %Object.prototype% in a fresh realm. *)
Definition ObjectPrototype_properties : list (jsstring * builtin) :=
  [ (u16 "constructor", ObjectConstructor);
    (u16 "__defineGetter__", Fn_defineGetter);
    (u16 "__defineSetter__", Fn_defineSetter);
    (u16 "hasOwnProperty", Fn_hasOwnProperty);
    (u16 "__lookupGetter__", Fn_lookupGetter);
    (u16 "__lookupSetter__", Fn_lookupSetter);
    (u16 "isPrototypeOf", Fn_isPrototypeOf);
    (u16 "propertyIsEnumerable", Fn_propertyIsEnumerable);
    (u16 "toString", Fn_toString);
    (u16 "valueOf", Fn_valueOf);
    (u16 "__proto__", ObjectPrototype);
    (u16 "toLocaleString", Fn_toLocaleString) ].

Fixpoint assoc {V : Type} (k : jsstring) (l : list (jsstring * V)) : option V :=
  match l with
  | [] => None
  | (k', v) :: l' => if str_eqb k k' then Some v else assoc k l'
  end.

(** The built-in object a property name is inherited as, if any. *)
Definition inherited (k : jsstring) : option builtin :=
  assoc k ObjectPrototype_properties.

(** The part of the realm this program can change: the built-in objects
    that have been given an own property [count] (its value is always NaN,
    see [incrementCount]).  A fresh realm has none. *)
Definition Realm := list builtin.

Definition freshRealm : Realm := [].

Definition hasCount (rho : Realm) (b : builtin) : bool :=
  existsb (builtin_eqb b) rho.

(** [b.count++] on a built-in object: the old value is [undefined] or NaN,
    so the new one is NaN, stored as an own property of [b]. *)
Definition incrementCount (b : builtin) (rho : Realm) : Realm :=
  if hasCount rho b then rho else rho ++ [b].

(** Values a property read on the map object can produce. *)
Inductive value (C : Type) : Type :=
| VUndefined
| VNaN
| VObject (c : C)
| VBuiltin (b : builtin).

Arguments VUndefined {C}.
Arguments VNaN {C}.
Arguments VBuiltin {C} b.

Definition ToBoolean {C : Type} (v : value C) : bool :=
  match v with
  | VUndefined | VNaN => false
  | VObject _ | VBuiltin _ => true
  end.

(** Own properties, in creation order. *)
Definition object (C : Type) := list (jsstring * C).

(** [o[k]]: own property first, then %Object.prototype%. *)
Definition Get {C : Type} (rho : Realm) (o : object C) (k : jsstring) : value C :=
  match assoc k o with
  | Some c => VObject c
  | None =>
      match inherited k with
      | Some b => VBuiltin b
      | None =>
          if str_eqb k (u16 "count") && hasCount rho ObjectPrototype
          then VNaN else VUndefined
      end
  end.

(** [o[k] = c] where the prototype holds no setter and no read-only
    property for [k]: an existing own property keeps its place, a new one
    is created last. *)
Fixpoint Put {C : Type} (o : object C) (k : jsstring) (c : C) : object C :=
  match o with
  | [] => [(k, c)]
  | (k', c') :: o' =>
      if str_eqb k k' then (k', c) :: o' else (k', c') :: Put o' k c
  end.

Definition isDigit (c : code_unit) : bool := N.leb 48 c && N.leb c 57.

Definition digitsValue (k : jsstring) : N :=
  fold_left (fun acc c => (10 * acc + (c - 48))%N) k 0%N.

(** An array index is a canonical numeric string below 2^32 - 1. *)
Definition arrayIndex (k : jsstring) : option N :=
  match k with
  | [] => None
  | c :: k' =>
      if forallb isDigit k
         && (negb (N.eqb c 48) || match k' with [] => true | _ => false end)
         && N.leb (digitsValue k) 4294967294
      then Some (digitsValue k) else None
  end.

Definition isArrayIndex (k : jsstring) : bool :=
  match arrayIndex k with Some _ => true | None => false end.

Definition indexValue (k : jsstring) : Z :=
  match arrayIndex k with Some n => Z.of_N n | None => 0%Z end.

(** [Object.entries(o)]: OrdinaryOwnPropertyKeys lists the array-index
    keys first, in ascending numeric order, then the other string keys in
    creation order. *)
Definition Object_entries {C : Type} (o : object C) : list (jsstring * C) :=
  sort (fun a b => (indexValue (fst a) - indexValue (fst b))%Z)
       (filter (fun p => isArrayIndex (fst p)) o)
  ++ filter (fun p => negb (isArrayIndex (fst p))) o.

End JS.

(* ================================================================== *)
(** ** The component *)
(* ================================================================== *)

Module Finder.
Import JS.

(** [type Repo = { repo: string; count: number; url: string }] *)
Record Repo : Type := { repo : jsstring; count : Z; url : jsstring }.

(** The values of [repoIssueCount]: [{ count: number; url: string }]. *)
Record Cell : Type := { cell_count : Z; cell_url : jsstring }.

(** An item of [data.items]; only [repository_url] is read. *)
Record Issue : Type := { repository_url : jsstring }.

Definition ITEMS_PER_PAGE : Z := 10.

Definition trendingTopics : list jsstring :=
  [ u16 "hacktoberfest"; u16 "good-first-issue"; u16 "help-wanted";
    u16 "bug"; u16 "enhancement"; u16 "documentation" ].

(** *** The query: lines 39-41 of [fetchIssuesByTags] *)

(** [tags.split(',').map(tag => tag.trim()).filter(Boolean)] *)
Definition tagList (tags : jsstring) : list jsstring :=
  filter truthy_string (map trim (split (ch ",") tags)).

(** [tagList.map(tag => `label:${tag}`).join('+')] *)
Definition queryString (tags : jsstring) : jsstring :=
  join (u16 "+") (map (fun tag => u16 "label:" ++ tag) (tagList tags)).

Definition requestUrl (tags : jsstring) : jsstring :=
  u16 "https://api.github.com/search/issues?q=" ++ queryString tags
  ++ u16 "&per_page=100".

(** *** Aggregation: lines 47-62 of [fetchIssuesByTags] *)

(** What a [throw] or a rejected promise carries into the [catch]. *)
Inductive thrown : Type :=
| Error (message : jsstring)
| TypeError
| Rejection.

(** [issue.repository_url.split('/').slice(-2).join('/')] *)
Definition repoFullName (issue : Issue) : jsstring :=
  join (u16 "/") (slice (split (ch "/") (repository_url issue)) (-2) None).

(** [issue.repository_url.replace('api.github.com/repos', 'github.com')] *)
Definition webUrl (issue : Issue) : jsstring :=
  replace (u16 "api.github.com/repos") (u16 "github.com") (repository_url issue).

(** The body of [data.items.forEach]: the guarded insertion, then
    [repoIssueCount[repoFullName].count++]. *)
Definition forEach_callback (rho : Realm) (repoIssueCount : object Cell)
    (issue : Issue) : Realm * (thrown + object Cell) :=
  let k := repoFullName issue in
  let tbl :=
    if negb (ToBoolean (Get rho repoIssueCount k))
    then Put repoIssueCount k {| cell_count := 0; cell_url := webUrl issue |}
    else repoIssueCount in
  match Get rho tbl k with
  | VObject c =>
      (rho, inr (Put tbl k {| cell_count := cell_count c + 1;
                              cell_url := cell_url c |}))
  | VBuiltin b => (incrementCount b rho, inr tbl)
  | VUndefined | VNaN => (rho, inl TypeError)
  end.

Fixpoint forEach (rho : Realm) (repoIssueCount : object Cell)
    (items : list Issue) : Realm * (thrown + object Cell) :=
  match items with
  | [] => (rho, inr repoIssueCount)
  | issue :: rest =>
      match forEach_callback rho repoIssueCount issue with
      | (rho', inr tbl) => forEach rho' tbl rest
      | (rho', inl e) => (rho', inl e)
      end
  end.

(** [.map(([repo, { count, url }]) => ({ repo, count, url }))] *)
Definition toRepo (p : jsstring * Cell) : Repo :=
  {| repo := fst p; count := cell_count (snd p); url := cell_url (snd p) |}.

(** [.sort((a, b) => b.count - a.count)] *)
Definition byCountDesc (a b : Repo) : Z := (count b - count a)%Z.

(** From [data.items] to [sortedRepos]. *)
Definition aggregate (rho : Realm) (items : list Issue)
    : Realm * (thrown + list Repo) :=
  match forEach rho [] items with
  | (rho', inr repoIssueCount) =>
      (rho', inr (sort byCountDesc (map toRepo (Object_entries repoIssueCount))))
  | (rho', inl e) => (rho', inl e)
  end.

(** *** Component state and the fetch cycle *)

Record State : Type := {
  tags : jsstring;
  repos : list Repo;
  loading : bool;
  error : option jsstring;
  currentPage : Z
}.

Definition initialState : State :=
  {| tags := []; repos := []; loading := false; error := None;
     currentPage := 1 |}.

Definition setTags (v : jsstring) (st : State) : State :=
  {| tags := v; repos := repos st; loading := loading st;
     error := error st; currentPage := currentPage st |}.
Definition setRepos (v : list Repo) (st : State) : State :=
  {| tags := tags st; repos := v; loading := loading st;
     error := error st; currentPage := currentPage st |}.
Definition setLoading (v : bool) (st : State) : State :=
  {| tags := tags st; repos := repos st; loading := v;
     error := error st; currentPage := currentPage st |}.
Definition setError (v : option jsstring) (st : State) : State :=
  {| tags := tags st; repos := repos st; loading := loading st;
     error := v; currentPage := currentPage st |}.
Definition setCurrentPage (v : Z) (st : State) : State :=
  {| tags := tags st; repos := repos st; loading := loading st;
     error := error st; currentPage := v |}.

(** How the request of one fetch cycle ends: [fetch] rejects, or a response
    arrives with a status and a body.  [Some items] is a body whose [items]
    is an array of records with a string [repository_url].  [None] is a
    body on which the [try] block throws before the loop has run:
    [response.json()] rejects, or [data.items] is not an array.  An array
    holding a record without a string [repository_url], on which the loop
    would throw part-way, is not among the outcomes modelled. *)
Inductive outcome : Type :=
| NetworkFailure
| Response (status : Z) (body : option (list Issue)).

(** [response.ok] *)
Definition ok (status : Z) : bool := (200 <=? status)%Z && (status <=? 299)%Z.

(** The [try] block after [await fetch(...)]. *)
Definition tryBlock (rho : Realm) (r : outcome) : Realm * (thrown + list Repo) :=
  match r with
  | NetworkFailure => (rho, inl Rejection)
  | Response status body =>
      if negb (ok status) then (rho, inl (Error (u16 "Failed to fetch issues")))
      else match body with
           | None => (rho, inl Rejection)
           | Some items => aggregate rho items
           end
  end.

Definition fetchErrorMessage : jsstring :=
  u16 "An error occurred while fetching issues. Please try again.".

(** [fetchIssuesByTags] up to its first [await]: the flags are set and the
    request leaves. *)
Definition fetchStart (st : State) : State * jsstring :=
  (setError None (setLoading true st), requestUrl (tags st)).

(** [fetchIssuesByTags] from the [await] on: [try], [catch], [finally]. *)
Definition fetchSettle (st : State) (rho : Realm) (r : outcome) : State * Realm :=
  match tryBlock rho r with
  | (rho', inr sortedRepos) => (setLoading false (setRepos sortedRepos st), rho')
  | (rho', inl _) => (setLoading false (setError (Some fetchErrorMessage) st), rho')
  end.

(** [handleSearch]: the fetch starts and the page goes back to 1. *)
Definition handleSearch (st : State) : State * list jsstring :=
  let (st', req) := fetchStart st in
  (setCurrentPage 1 st', [req]).

(** The effect on [[tags]]: it runs when [tags] has changed and fetches
    when the new text is truthy. *)
Definition tagsEffect (old : jsstring) (st : State) : State * list jsstring :=
  if negb (str_eqb old (tags st)) && truthy_string (tags st)
  then let (st', req) := fetchStart st in (st', [req])
  else (st, []).

(** [handleTrendingTopicClick] *)
Definition newTags (prevTags topic : jsstring) : jsstring :=
  if truthy_string prevTags then prevTags ++ u16 "," ++ topic else topic.

Definition handleTrendingTopicClick (topic : jsstring) (st : State)
    : State * list jsstring :=
  tagsEffect (tags st) (setTags (newTags (tags st) topic) st).

(** The input's [onChange]. *)
Definition handleChange (text : jsstring) (st : State) : State * list jsstring :=
  tagsEffect (tags st) (setTags text st).

(** *** Pagination: lines 91-95 and the footer *)

Definition totalPages (st : State) : Z :=
  Math_ceil_div (Z.of_nat (List.length (repos st))) ITEMS_PER_PAGE.

Definition paginate (results : list Repo) (page : Z) : list Repo :=
  slice results ((page - 1) * ITEMS_PER_PAGE)%Z (Some (page * ITEMS_PER_PAGE)%Z).

Definition paginatedRepos (st : State) : list Repo :=
  paginate (repos st) (currentPage st).

(** The footer is rendered when [repos.length > ITEMS_PER_PAGE]. *)
Definition pagerShown (st : State) : bool :=
  (ITEMS_PER_PAGE <? Z.of_nat (List.length (repos st)))%Z.

Definition previousDisabled (st : State) : bool := (currentPage st =? 1)%Z.
Definition nextDisabled (st : State) : bool := (currentPage st =? totalPages st)%Z.

(** A click reaches the handler only on a rendered, enabled button. *)
Definition clickPrevious (st : State) : State :=
  if pagerShown st && negb (previousDisabled st)
  then setCurrentPage (Z.max (currentPage st - 1) 1) st else st.

Definition clickNext (st : State) : State :=
  if pagerShown st && negb (nextDisabled st)
  then setCurrentPage (Z.min (currentPage st + 1) (totalPages st)) st else st.

(** *** Events *)

Inductive event : Type :=
| Change (text : jsstring)
| Submit
| TopicClick (topic : jsstring)
| Settled (r : outcome)
| Previous
| Next.

(** One event: the next state of the component and of the realm, and the
    requests sent. *)
Definition step (st : State) (rho : Realm) (e : event)
    : State * Realm * list jsstring :=
  match e with
  | Change text => let (st', reqs) := handleChange text st in (st', rho, reqs)
  | Submit => let (st', reqs) := handleSearch st in (st', rho, reqs)
  | TopicClick topic =>
      let (st', reqs) := handleTrendingTopicClick topic st in (st', rho, reqs)
  | Settled r => let (st', rho') := fetchSettle st rho r in (st', rho', [])
  | Previous => (clickPrevious st, rho, [])
  | Next => (clickNext st, rho, [])
  end.

End Finder.

(* ================================================================== *)
(** ** Vocabulary of the specification *)
(* ================================================================== *)

Module Spec.
Import JS Finder.

(** [t] is [s] without its leading and trailing white space. *)
Definition trimmed (s t : jsstring) : Prop :=
  exists l r,
    s = l ++ t ++ r
    /\ forallb isWhiteSpace l = true
    /\ forallb isWhiteSpace r = true
    /\ match t with c :: _ => isWhiteSpace c = false | [] => True end
    /\ match rev t with c :: _ => isWhiteSpace c = false | [] => True end.

(** The segments of [s] between occurrences of [sep]. *)
Definition splits_into (sep : code_unit) (s : jsstring) (segs : list jsstring) : Prop :=
  segs <> [] /\ join [sep] segs = s /\ Forall (fun seg => ~ In sep seg) segs.

(** Order by a numeric key, largest first, then by a relation [T]. *)
Definition keyThenInput (A : Type) (key : A -> Z) (T : A -> A -> Prop)
    (a b : A) : Prop :=
  (key a > key b)%Z \/ (key a = key b /\ T a b).

(** The repository identifiers of the records, in input order. *)
Definition identifiers (items : list Issue) : list jsstring :=
  map repoFullName items.

(** Position of the first occurrence of [k]; the length when there is none. *)
Fixpoint firstIndex (k : jsstring) (l : list jsstring) : nat :=
  match l with
  | [] => O
  | x :: l' => if str_eqb k x then O else S (firstIndex k l')
  end.

Definition occurrences (k : jsstring) (l : list jsstring) : nat :=
  List.length (filter (str_eqb k) l).

(** The first record whose identifier is [k]. *)
Definition firstRecord (k : jsstring) (items : list Issue) : option Issue :=
  find (fun i => str_eqb (repoFullName i) k) items.

(** What an entry for one repository must hold. *)
Definition entryOf (items : list Issue) (e : Repo) : Prop :=
  count e = Z.of_nat (occurrences (repo e) (identifiers items))
  /\ exists first, firstRecord (repo e) items = Some first /\ url e = webUrl first.

Definition oneEntryPerIdentifier (items : list Issue) (out : list Repo) : Prop :=
  NoDup (map repo out)
  /\ (forall k, In k (map repo out) <-> In k (identifiers items))
  /\ (forall e, In e out -> entryOf items e).

(** Counts never increase along the list. *)
Definition descending (out : list Repo) : Prop :=
  forall l1 a l2 b l3, out = l1 ++ a :: l2 ++ b :: l3 -> (count b <= count a)%Z.

(** Entries with the same count stand in the order their identifiers were
    first met. *)
Definition tiesInFirstSeenOrder (items : list Issue) (out : list Repo) : Prop :=
  forall l1 a l2 b l3, out = l1 ++ a :: l2 ++ b :: l3 -> count a = count b ->
    (firstIndex (repo a) (identifiers items)
     < firstIndex (repo b) (identifiers items)
     < List.length (identifiers items))%nat.

Definition seenBefore (ids : list jsstring) (x y : jsstring) : Prop :=
  (firstIndex x ids < firstIndex y ids)%nat.

(** The state of [repoIssueCount] after the records [done], started empty. *)
Record tallied (done : list Issue) (tbl : object Cell) : Prop := {
  tallied_keys : forall k,
    In k (map fst tbl) <-> In k (identifiers done) /\ inherited k = None;
  tallied_order : StronglySorted (seenBefore (identifiers done)) (map fst tbl);
  tallied_cells : forall k c, In (k, c) tbl ->
    cell_count c = Z.of_nat (occurrences k (identifiers done))
    /\ exists first, firstRecord k done = Some first /\ cell_url c = webUrl first
}.

(** Aggregation as a pure function: one output for the input, whatever the
    realm, and the realm handed back as it was. *)
Definition pureOn (items : list Issue) : Prop :=
  exists out, forall rho, aggregate rho items = (rho, inr out).

(** A fetch cycle that does not reach [setRepos]. *)
Definition failed (r : outcome) : Prop :=
  match r with
  | NetworkFailure => True
  | Response status body => ok status = false \/ body = None
  end.

(** The message on screen after a cycle that ends with [r]. *)
Definition shown (st : State) (rho : Realm) (r : outcome) : option jsstring :=
  error (fst (fetchSettle st rho r)).

End Spec.

(** Inputs used in the examples below. *)
Module Samples.
Import JS Finder.

Definition issue (s : string) : Issue := {| repository_url := u16 s |}.

Definition threeIssues : list Issue :=
  [ issue "https://api.github.com/repos/a/b";
    issue "https://api.github.com/repos/a/b";
    issue "https://api.github.com/repos/c/d" ].

Definition tiedIssues : list Issue :=
  [ issue "https://api.github.com/repos/c/d";
    issue "https://api.github.com/repos/a/b";
    issue "https://api.github.com/repos/e/f";
    issue "https://api.github.com/repos/a/b";
    issue "https://api.github.com/repos/c/d" ].

Definition row (name : string) (n : Z) (link : string) : Repo :=
  {| repo := u16 name; count := n; url := u16 link |}.

(** A state that shows the results of an earlier search. *)
Definition afterSearch : State :=
  {| tags := u16 "bug";
     repos := [ row "a/b" 2 "https://github.com/a/b";
                row "c/d" 1 "https://github.com/c/d" ];
     loading := true; error := None; currentPage := 1 |}.

(** Twenty-five results, on page 2. *)
Definition twentyFive : State :=
  {| tags := u16 "bug";
     repos := map (fun n => row "a/b" (Z.of_nat n) "https://github.com/a/b")
                  (seq 0 25);
     loading := false; error := None; currentPage := 2 |}.

End Samples.

(* ================================================================== *)
(** ** What is rendered, and runs of events *)
(* ================================================================== *)

Module View.
Import JS Finder Spec.

(** Lines 120-126: when [tags] is truthy, one badge per comma-separated
    segment, trimmed; empty segments are not filtered out here. *)
Definition badges (st : State) : list jsstring :=
  if truthy_string (tags st) then map trim (split (ch ",") (tags st)) else [].

(** Line 146: the table is rendered when [repos.length > 0]; its body lists
    [paginatedRepos]. *)
Definition tableShown (st : State) : bool :=
  (0 <? Z.of_nat (List.length (repos st)))%Z.

Definition rows (st : State) : list Repo :=
  if tableShown st then paginatedRepos st else [].

(** The events of a session, one after the other; the requests sent are
    collected in order. *)
Fixpoint run (st : State) (rho : Realm) (events : list event)
    : State * Realm * list jsstring :=
  match events with
  | [] => (st, rho, [])
  | e :: rest =>
      let '(st1, rho1, sent1) := step st rho e in
      let '(st2, rho2, sent2) := run st1 rho1 rest in
      (st2, rho2, sent1 ++ sent2)
  end.

(** The pages the footer can reach: 1 to [totalPages]. *)
Definition pageNumbers (st : State) : list Z :=
  map Z.of_nat (seq 1 (Z.to_nat (totalPages st))).

(** *** Vocabulary for the properties of these *)

(** A code unit that contributes no label: white space or a comma. *)
Definition blank (c : code_unit) : bool := isWhiteSpace c || N.eqb c (ch ",").

(** A label as the query holds it. *)
Definition cleanLabel (L : jsstring) : Prop :=
  L <> [] /\ ~ In (ch ",") L /\ trim L = L.

Definition commas (s : jsstring) : nat :=
  List.length (filter (N.eqb (ch ",")) s).

Definition isInherited (k : jsstring) : bool :=
  match inherited k with Some _ => true | None => false end.

(** The repository URL the search API sends. *)
Definition gitHubUrl (u : jsstring) : Prop :=
  exists owner name,
    ~ In (ch "/") owner /\ ~ In (ch "/") name
    /\ u = u16 "https://api.github.com/repos/" ++ owner ++ u16 "/" ++ name.

Definition sumCounts (out : list Repo) : Z :=
  fold_right (fun e acc => (count e + acc)%Z) 0%Z out.

(** A well-formed result list: distinct names, positive counts, largest
    count first. *)
Definition ranked (out : list Repo) : Prop :=
  NoDup (map repo out)
  /\ Forall (fun e => (1 <= count e)%Z) out
  /\ descending out.

End View.

(* ================================================================== *)
(** ** Facts about the primitives *)
(* ================================================================== *)

Module JSFacts.
Import JS Spec.

Lemma str_eqb_refl (a : jsstring) : str_eqb a a = true.
Proof.
  induction a as [|x a IH]; simpl; [reflexivity|].
  now rewrite N.eqb_refl, IH.
Qed.

Lemma str_eqb_eq (a b : jsstring) : str_eqb a b = true <-> a = b.
Proof.
  split.
  - revert b; induction a as [|x a IH]; intros [|y b]; simpl; try discriminate; auto.
    intros H. apply andb_true_iff in H as [Hx Hab].
    apply N.eqb_eq in Hx. apply IH in Hab. now subst.
  - intros ->. apply str_eqb_refl.
Qed.

Lemma str_eqb_neq (a b : jsstring) : str_eqb a b = false <-> a <> b.
Proof.
  rewrite <- str_eqb_eq. destruct (str_eqb a b); split; congruence.
Qed.

Lemma str_eqb_sym (a b : jsstring) : str_eqb a b = str_eqb b a.
Proof.
  destruct (str_eqb a b) eqn:E.
  - apply str_eqb_eq in E. subst. symmetry. apply str_eqb_refl.
  - apply str_eqb_neq in E. symmetry. apply str_eqb_neq. congruence.
Qed.

(** *** split and join *)

Lemma split_not_nil (sep : code_unit) (s : jsstring) : split sep s <> [].
Proof.
  destruct s as [|c s]; simpl; [discriminate|].
  destruct (N.eqb c sep); [discriminate|].
  destruct (split sep s); discriminate.
Qed.

Lemma join_split (sep : code_unit) (s : jsstring) : join [sep] (split sep s) = s.
Proof.
  induction s as [|c s IH]; simpl; [reflexivity|].
  destruct (N.eqb c sep) eqn:E.
  - apply N.eqb_eq in E. subst c.
    pose proof (split_not_nil sep s) as Hn.
    destruct (split sep s) as [|seg segs]; [congruence|].
    simpl in *. now rewrite IH.
  - pose proof (split_not_nil sep s) as Hn.
    destruct (split sep s) as [|seg segs]; [congruence|].
    simpl in *. destruct segs; simpl in *; now rewrite <- IH.
Qed.

Lemma split_segments_free (sep : code_unit) (s : jsstring) :
  Forall (fun seg => ~ In sep seg) (split sep s).
Proof.
  induction s as [|c s IH]; simpl.
  - constructor; [intros []|constructor].
  - destruct (N.eqb c sep) eqn:E.
    + constructor; [intros []|exact IH].
    + apply N.eqb_neq in E.
      destruct (split sep s) as [|seg segs]; simpl.
      * constructor; [|constructor]. intros [H|[]]. congruence.
      * inversion IH as [|? ? Hseg Hsegs]; subst.
        constructor; [|exact Hsegs]. intros [H|H]; [congruence|auto].
Qed.

Lemma split_no_sep (sep : code_unit) (s : jsstring) :
  ~ In sep s -> split sep s = [s].
Proof.
  induction s as [|c s IH]; simpl; [reflexivity|].
  intros H. destruct (N.eqb c sep) eqn:E.
  - apply N.eqb_eq in E. exfalso. apply H. now left.
  - rewrite IH; [reflexivity|]. intros Hin. apply H. now right.
Qed.

(** *** trim *)

Lemma trimStart_spec (s : jsstring) :
  exists l, s = l ++ trimStart s /\ forallb isWhiteSpace l = true
            /\ match trimStart s with
               | c :: _ => isWhiteSpace c = false
               | [] => True
               end.
Proof.
  induction s as [|c s (l & Hs & Hl & Hh)]; simpl.
  - exists []. repeat split.
  - destruct (isWhiteSpace c) eqn:E.
    + exists (c :: l). simpl. rewrite E, Hl. repeat split; [congruence|exact Hh].
    + exists []. repeat split. exact E.
Qed.

Lemma trimStart_all_ws (s : jsstring) :
  forallb isWhiteSpace s = true -> trimStart s = [].
Proof.
  induction s as [|c s IH]; simpl; [reflexivity|].
  intros H. apply andb_true_iff in H as [Hc Hs]. rewrite Hc. auto.
Qed.

Lemma trimStart_head (s : jsstring) :
  match s with c :: _ => isWhiteSpace c = false | [] => True end ->
  trimStart s = s.
Proof. destruct s as [|c s]; simpl; [reflexivity|]. now intros ->. Qed.

Lemma trimStart_keeps_last (s : jsstring) (c : code_unit) :
  isWhiteSpace c = false -> trimStart (s ++ [c]) = trimStart s ++ [c].
Proof.
  intros Hc. induction s as [|x s IH]; simpl.
  - now rewrite Hc.
  - destruct (isWhiteSpace x); [exact IH|reflexivity].
Qed.

Lemma forallb_rev (A : Type) (f : A -> bool) (l : list A) :
  forallb f (rev l) = forallb f l.
Proof.
  induction l as [|x l IH]; simpl; [reflexivity|].
  rewrite forallb_app, IH. simpl. rewrite andb_true_r. apply andb_comm.
Qed.

Lemma trim_trimmed (s : jsstring) : trimmed s (trim s).
Proof.
  unfold trimmed, trim, trimEnd.
  destruct (trimStart_spec s) as (l & Hs & Hl & Hhead).
  destruct (trimStart_spec (rev (trimStart s))) as (r & Hr & Hrws & Hlast).
  set (t := trimStart (rev (trimStart s))) in *.
  assert (Hs1 : trimStart s = rev t ++ rev r).
  { rewrite <- rev_app_distr, <- Hr. now rewrite rev_involutive. }
  exists l, (rev r). repeat split.
  - now rewrite <- Hs1.
  - exact Hl.
  - now rewrite forallb_rev.
  - rewrite Hs1 in Hhead. destruct (rev t); simpl in *; [exact I|exact Hhead].
  - now rewrite rev_involutive.
Qed.

Lemma trim_all_ws (s : jsstring) :
  forallb isWhiteSpace s = true -> trim s = [].
Proof.
  intros H. unfold trim, trimEnd. now rewrite (trimStart_all_ws s H).
Qed.

Lemma split_splits_into (sep : code_unit) (s : jsstring) :
  splits_into sep s (split sep s).
Proof.
  repeat split;
    [apply split_not_nil | apply join_split | apply split_segments_free].
Qed.

(** Both descriptions determine their result. *)

Lemma split_cons_segment (sep : code_unit) (x s : jsstring) :
  ~ In sep x -> split sep (x ++ sep :: s) = x :: split sep s.
Proof.
  induction x as [|c x IH]; simpl; intros H.
  - now rewrite N.eqb_refl.
  - destruct (N.eqb c sep) eqn:E.
    + apply N.eqb_eq in E. exfalso. apply H. now left.
    + rewrite IH; [reflexivity|]. intros Hin. apply H. now right.
Qed.

Lemma splits_into_split (sep : code_unit) (s : jsstring) (segs : list jsstring) :
  splits_into sep s segs -> split sep s = segs.
Proof.
  intros (Hne & <- & Hfree).
  induction segs as [|x segs IH]; [congruence|].
  inversion Hfree as [|? ? Hx Hsegs]; subst.
  destruct segs as [|y segs].
  - simpl. now apply split_no_sep.
  - change (join [sep] (x :: y :: segs)) with (x ++ sep :: join [sep] (y :: segs)).
    rewrite split_cons_segment by exact Hx.
    f_equal. apply IH; [discriminate|exact Hsegs].
Qed.

Lemma trimStart_ws_prefix (l x : jsstring) :
  forallb isWhiteSpace l = true -> trimStart (l ++ x) = trimStart x.
Proof.
  induction l as [|c l IH]; simpl; [reflexivity|].
  intros H. apply andb_true_iff in H as [-> Hl]. auto.
Qed.

Lemma trimmed_trim (s t : jsstring) : trimmed s t -> trim s = t.
Proof.
  intros (l & r & -> & Hl & Hr & Hhead & Hlast).
  unfold trim, trimEnd. rewrite (trimStart_ws_prefix _ _ Hl).
  destruct t as [|c t].
  - simpl. now rewrite (trimStart_all_ws r Hr).
  - rewrite (trimStart_head ((c :: t) ++ r)) by exact Hhead.
    rewrite rev_app_distr, trimStart_ws_prefix by now rewrite forallb_rev.
    rewrite trimStart_head by exact Hlast. apply rev_involutive.
Qed.

End JSFacts.

(** *** Objects as maps and the stable sort *)

Module ObjectFacts.
Import JS Spec JSFacts.

Section Tables.
Variable C : Type.
Implicit Types (o : object C) (k : jsstring) (c : C).

Lemma assoc_In o k c : assoc k o = Some c -> In (k, c) o.
Proof.
  induction o as [|[k' c'] o IH]; simpl; [discriminate|].
  destruct (str_eqb k k') eqn:E.
  - apply str_eqb_eq in E. intros [= ->]. subst. now left.
  - intros H. right. auto.
Qed.

Lemma assoc_None o k : assoc k o = None <-> ~ In k (map fst o).
Proof.
  induction o as [|[k' c'] o IH]; simpl; [tauto|].
  destruct (str_eqb k k') eqn:E.
  - apply str_eqb_eq in E. subst. split; [discriminate|]. intros H. exfalso. auto.
  - apply str_eqb_neq in E. rewrite IH. split.
    + intros H [H1|H1]; [congruence|auto].
    + intros H H1. apply H. now right.
Qed.

Lemma In_assoc o k c :
  NoDup (map fst o) -> In (k, c) o -> assoc k o = Some c.
Proof.
  induction o as [|[k' c'] o IH]; simpl; [intros _ []|].
  intros Hnd [H|H].
  - injection H as -> ->. now rewrite str_eqb_refl.
  - inversion Hnd as [|? ? Hnotin Hnd']; subst.
    destruct (str_eqb k k') eqn:E.
    + apply str_eqb_eq in E. subst. exfalso. apply Hnotin.
      apply in_map_iff. now exists (k', c).
    + auto.
Qed.

Lemma Put_fresh o k c : assoc k o = None -> Put o k c = o ++ [(k, c)].
Proof.
  induction o as [|[k' c'] o IH]; simpl; [reflexivity|].
  destruct (str_eqb k k'); [discriminate|]. intros H. now rewrite IH.
Qed.

Lemma Put_keys o k c c0 :
  assoc k o = Some c0 -> map fst (Put o k c) = map fst o.
Proof.
  induction o as [|[k' c'] o IH]; simpl; [discriminate|].
  destruct (str_eqb k k'); simpl; [reflexivity|].
  intros H. now rewrite IH.
Qed.

Lemma Put_In o k c p :
  NoDup (map fst o) ->
  In p (Put o k c) -> p = (k, c) \/ (In p o /\ fst p <> k).
Proof.
  induction o as [|[k' c'] o IH]; simpl.
  - intros _ [H|[]]. now left.
  - intros Hnd. inversion Hnd as [|? ? Hnotin Hnd']; subst.
    destruct (str_eqb k k') eqn:E.
    + apply str_eqb_eq in E. subst k'. intros [H|H]; [now left|].
      right. split; [now right|]. intros Hk. apply Hnotin.
      rewrite <- Hk. now apply in_map.
    + apply str_eqb_neq in E. simpl. intros [H|H].
      * subst p. right. split; [now left|]. simpl. congruence.
      * destruct (IH Hnd' H) as [H1|[H1 H2]]; [now left|].
        right. split; [now right|exact H2].
Qed.

Lemma Put_In_new o k c : In (k, c) (Put o k c).
Proof.
  induction o as [|[k' c'] o IH]; simpl; [now left|].
  destruct (str_eqb k k') eqn:E.
  - apply str_eqb_eq in E. subst. now left.
  - now right.
Qed.

Lemma Put_In_old o k c p : In p o -> fst p <> k -> In p (Put o k c).
Proof.
  induction o as [|[k' c'] o IH]; simpl; [intros []|].
  intros [H|H] Hk.
  - subst p. simpl in Hk. destruct (str_eqb k k') eqn:E.
    + apply str_eqb_eq in E. congruence.
    + now left.
  - destruct (str_eqb k k'); right; auto.
Qed.

Lemma assoc_app_fresh o k c : assoc k o = None -> assoc k (o ++ [(k, c)]) = Some c.
Proof.
  induction o as [|[k' c'] o IH]; simpl.
  - now rewrite str_eqb_refl.
  - destruct (str_eqb k k'); [discriminate|auto].
Qed.
End Tables.

Section StableSort.
Variable A : Type.
Variable cmp : A -> A -> Z.

Lemma sort_insert_Permutation (x : A) (l : list A) :
  Permutation (x :: l) (sort_insert cmp x l).
Proof.
  induction l as [|y l IH]; simpl; [reflexivity|].
  destruct (cmp x y >? 0)%Z; [|reflexivity].
  rewrite perm_swap. now constructor.
Qed.

Lemma sort_Permutation (l : list A) : Permutation l (sort cmp l).
Proof.
  induction l as [|x l IH]; simpl; [reflexivity|].
  rewrite <- sort_insert_Permutation. now constructor.
Qed.
End StableSort.

(** Sorting by a numeric key, largest first, as [(a, b) => key b - key a]
    does: the result is ordered by the key, and elements with the same key
    keep the order [T] the input had. *)
Section SortByKeyDesc.
Variable A : Type.
Variable key : A -> Z.
Variable T : A -> A -> Prop.

Lemma sort_insert_ranked (x : A) (s : list A) :
  StronglySorted (keyThenInput key T) s -> Forall (T x) s ->
  StronglySorted (keyThenInput key T) (sort_insert (fun a b => key b - key a)%Z x s).
Proof.
  induction s as [|y s IH]; simpl; intros Hs Hx.
  - repeat constructor.
  - inversion Hs as [|? ? Hs' Hy]; subst.
    inversion Hx as [|? ? Hxy Hx']; subst.
    destruct (key y - key x >? 0)%Z eqn:E.
    + constructor; [auto|].
      eapply Permutation_Forall; [apply sort_insert_Permutation|].
      constructor; [|exact Hy]. left. lia.
    + constructor; [exact Hs|].
      assert (Hle : (key y <= key x)%Z) by lia.
      constructor.
      * destruct (Z.eq_dec (key x) (key y)); [right; now split|left; lia].
      * rewrite Forall_forall in *. intros z Hz.
        assert (Hyz : (key z <= key y)%Z).
        { destruct (Hy z Hz) as [H|[H _]]; lia. }
        destruct (Z.eq_dec (key x) (key z)); [right; split; auto|left; lia].
Qed.

Lemma sort_ranked (l : list A) :
  StronglySorted T l ->
StronglySorted (keyThenInput key T) (sort (fun a b => key b - key a)%Z l).
Proof.
  induction l as [|x l IH]; simpl; intros Hl; [constructor|].
  inversion Hl as [|? ? Hl' Hx]; subst.
  apply sort_insert_ranked; [auto|].
  eapply Permutation_Forall; [apply sort_Permutation|exact Hx].
Qed.
End SortByKeyDesc.

Lemma StronglySorted_pair (A : Type) (R : A -> A -> Prop)
    (l l1 l2 l3 : list A) (a b : A) :
  StronglySorted R l -> l = l1 ++ a :: l2 ++ b :: l3 -> R a b.
Proof.
  revert l. induction l1 as [|x l1 IH]; intros l Hl ->; simpl in Hl.
  - inversion Hl as [|? ? _ Ha]; subst.
    rewrite Forall_forall in Ha. apply Ha.
    apply in_or_app. right. now left.
  - inversion Hl; subst. eapply IH; eauto.
Qed.

Lemma StronglySorted_map (A B : Type) (f : A -> B) (R : B -> B -> Prop)
    (l : list A) :
  StronglySorted (fun x y => R (f x) (f y)) l <-> StronglySorted R (map f l).
Proof.
  induction l as [|x l IH]; simpl.
  - split; constructor.
  - split; intros H; inversion H as [|? ? Hl Hx]; subst; constructor.
    + now apply IH.
    + rewrite Forall_forall in *. intros y Hy.
      apply in_map_iff in Hy as (z & <- & Hz). auto.
    + now apply IH.
    + rewrite Forall_forall in *. intros y Hy. apply Hx. now apply in_map.
Qed.

Lemma StronglySorted_ext_in (A : Type) (R R' : A -> A -> Prop) (l : list A) :
  (forall x y, In x l -> In y l -> R x y -> R' x y) ->
  StronglySorted R l -> StronglySorted R' l.
Proof.
  induction l as [|x l IH]; intros Hext Hl; [constructor|].
  inversion Hl as [|? ? Hl' Hx]; subst. constructor.
  - apply IH; [|exact Hl']. intros a b Ha Hb. apply Hext; now right.
  - rewrite Forall_forall in *. intros y Hy.
    apply Hext; [now left|now right|auto].
Qed.

Lemma StronglySorted_snoc (A : Type) (R : A -> A -> Prop) (l : list A) (x : A) :
  StronglySorted R l -> Forall (fun y => R y x) l -> StronglySorted R (l ++ [x]).
Proof.
  induction l as [|y l IH]; simpl; intros Hl Hx.
  - repeat constructor.
  - inversion Hl as [|? ? Hl' Hy]; subst.
    inversion Hx as [|? ? Hyx Hx']; subst.
    constructor; [auto|].
    apply Forall_app. split; [exact Hy|]. now constructor.
Qed.

Lemma StronglySorted_irrefl_NoDup (A : Type) (R : A -> A -> Prop) (l : list A) :
  (forall x, ~ R x x) -> StronglySorted R l -> NoDup l.
Proof.
  intros Hirr. induction l as [|x l IH]; intros Hl; constructor;
    inversion Hl as [|? ? Hl' Hx]; subst; [|auto].
  intros Hin. rewrite Forall_forall in Hx. exact (Hirr x (Hx x Hin)).
Qed.

(** [Object.entries] lists exactly the own properties, and lists them in
    creation order when no key is an array index. *)
Lemma filter_split_Permutation (A : Type) (f : A -> bool) (l : list A) :
  Permutation (filter f l ++ filter (fun x => negb (f x)) l) l.
Proof.
  induction l as [|x l IH]; simpl; [reflexivity|].
  destruct (f x); simpl.
  - now constructor.
  - rewrite <- Permutation_middle. now constructor.
Qed.

Lemma Object_entries_Permutation (C : Type) (o : object C) :
  Permutation (Object_entries o) o.
Proof.
  unfold Object_entries.
  rewrite <- (filter_split_Permutation (fun p => isArrayIndex (fst p)) o) at 3.
  apply Permutation_app_tail. symmetry. apply sort_Permutation.
Qed.

Lemma Object_entries_creation_order (C : Type) (o : object C) :
  Forall (fun k => isArrayIndex k = false) (map fst o) ->
  Object_entries o = o.
Proof.
  intros H. unfold Object_entries.
  assert (H1 : filter (fun p : jsstring * C => isArrayIndex (fst p)) o = []).
  { induction o as [|p o IH]; simpl in *; [reflexivity|].
    inversion H as [|? ? Hp Ho]; subst. rewrite Hp. auto. }
  assert (H2 : filter (fun p : jsstring * C => negb (isArrayIndex (fst p))) o = o).
  { induction o as [|p o IH]; simpl in *; [reflexivity|].
    inversion H as [|? ? Hp Ho]; subst. rewrite Hp. simpl. f_equal.
    apply IH; [exact Ho|]. simpl in H1. rewrite Hp in H1. exact H1. }
  now rewrite H1, H2.
Qed.

End ObjectFacts.

(* ================================================================== *)
(** ** Aggregation *)
(* ================================================================== *)

Module AggregateFacts.
Import JS Finder Spec JSFacts ObjectFacts.

Lemma firstIndex_In (k : jsstring) (l : list jsstring) :
  In k l <-> (firstIndex k l < List.length l)%nat.
Proof.
  induction l as [|x l IH]; simpl; [split; [intros []|lia]|].
  destruct (str_eqb k x) eqn:E.
  - apply str_eqb_eq in E. subst. split; [lia|now left].
  - apply str_eqb_neq in E. rewrite <- Nat.succ_lt_mono, <- IH.
    split; [intros [H|H]; congruence|now right].
Qed.

Lemma firstIndex_app_old (k : jsstring) (l m : list jsstring) :
  In k l -> firstIndex k (l ++ m) = firstIndex k l.
Proof.
  induction l as [|x l IH]; simpl; [intros []|].
  destruct (str_eqb k x) eqn:E; [reflexivity|].
  apply str_eqb_neq in E. intros [H|H]; [congruence|]. now rewrite IH.
Qed.

Lemma firstIndex_app_new (k : jsstring) (l : list jsstring) :
  ~ In k l -> firstIndex k (l ++ [k]) = List.length l.
Proof.
  induction l as [|x l IH]; simpl; intros H.
  - now rewrite str_eqb_refl.
  - destruct (str_eqb k x) eqn:E.
    + apply str_eqb_eq in E. exfalso. apply H. now left.
    + rewrite IH; [reflexivity|]. intros Hin. apply H. now right.
Qed.

Lemma occurrences_app (k : jsstring) (l m : list jsstring) :
  occurrences k (l ++ m) = (occurrences k l + occurrences k m)%nat.
Proof. unfold occurrences. now rewrite filter_app, length_app. Qed.

Lemma occurrences_absent (k : jsstring) (l : list jsstring) :
  ~ In k l -> occurrences k l = O.
Proof.
  unfold occurrences. induction l as [|x l IH]; simpl; [reflexivity|].
  intros H. destruct (str_eqb k x) eqn:E.
  - apply str_eqb_eq in E. exfalso. apply H. now left.
  - apply IH. intros Hin. apply H. now right.
Qed.

Lemma occurrences_one (k x : jsstring) :
  occurrences k [x] = if str_eqb k x then 1%nat else O.
Proof. unfold occurrences. simpl. now destruct (str_eqb k x). Qed.

Lemma firstRecord_app_old (k : jsstring) (l m : list Issue) (i : Issue) :
  firstRecord k l = Some i -> firstRecord k (l ++ m) = Some i.
Proof.
  unfold firstRecord. induction l as [|x l IH]; simpl; [discriminate|].
  destruct (str_eqb (repoFullName x) k); auto.
Qed.

Lemma firstRecord_app_new (l : list Issue) (i : Issue) :
  ~ In (repoFullName i) (identifiers l) ->
  firstRecord (repoFullName i) (l ++ [i]) = Some i.
Proof.
  unfold firstRecord. induction l as [|x l IH]; simpl; intros H.
  - now rewrite str_eqb_refl.
  - destruct (str_eqb (repoFullName x) (repoFullName i)) eqn:E.
    + apply str_eqb_eq in E. exfalso. apply H. now left.
    + apply IH. intros Hin. apply H. now right.
Qed.

Lemma seenBefore_irrefl (ids : list jsstring) (x : jsstring) : ~ seenBefore ids x x.
Proof. unfold seenBefore. lia. Qed.

Lemma tallied_NoDup (done : list Issue) (tbl : object Cell) :
  tallied done tbl -> NoDup (map fst tbl).
Proof.
  intros H. eapply StronglySorted_irrefl_NoDup; [|apply (tallied_order H)].
  apply seenBefore_irrefl.
Qed.

Lemma tallied_nil : tallied [] [].
Proof.
  constructor; simpl.
  - intros k. tauto.
  - constructor.
  - intros k c [].
Qed.

(** The three ways one record goes through the callback. *)

Lemma callback_seen (rho : Realm) (tbl : object Cell) (i : Issue) (c : Cell) :
  assoc (repoFullName i) tbl = Some c ->
  forEach_callback rho tbl i =
    (rho, inr (Put tbl (repoFullName i)
                 {| cell_count := cell_count c + 1; cell_url := cell_url c |})).
Proof.
  intros H.
  assert (Hg : Get rho tbl (repoFullName i) = VObject c).
  { unfold Get. now rewrite H. }
  unfold forEach_callback. rewrite Hg. cbn [ToBoolean negb]. now rewrite Hg.
Qed.

Lemma callback_inherited (rho : Realm) (tbl : object Cell) (i : Issue) (b : builtin) :
  assoc (repoFullName i) tbl = None ->
  inherited (repoFullName i) = Some b ->
  forEach_callback rho tbl i = (incrementCount b rho, inr tbl).
Proof.
  intros H Hb.
  assert (Hg : Get rho tbl (repoFullName i) = VBuiltin b).
  { unfold Get. now rewrite H, Hb. }
  unfold forEach_callback. rewrite Hg. cbn [ToBoolean negb]. now rewrite Hg.
Qed.

Lemma Put_app_last (C : Type) (o : object C) (k : jsstring) (c0 c1 : C) :
  assoc k o = None -> Put (o ++ [(k, c0)]) k c1 = o ++ [(k, c1)].
Proof.
  induction o as [|[k' c'] o IH]; simpl.
  - now rewrite str_eqb_refl.
  - destruct (str_eqb k k'); [discriminate|]. intros H. now rewrite IH.
Qed.

(** A new identifier is inserted with count 0 and incremented at once. *)
Lemma callback_new (rho : Realm) (tbl : object Cell) (i : Issue) :
  assoc (repoFullName i) tbl = None ->
  inherited (repoFullName i) = None ->
  forEach_callback rho tbl i =
    (rho, inr (tbl ++ [(repoFullName i,
                        {| cell_count := 0 + 1; cell_url := webUrl i |})])).
Proof.
  intros H Hb. unfold forEach_callback.
  assert (Hfalsy : ToBoolean (Get rho tbl (repoFullName i)) = false).
  { unfold Get. rewrite H, Hb.
    now destruct (str_eqb _ _ && hasCount rho ObjectPrototype). }
  rewrite Hfalsy. simpl negb. cbv iota.
  rewrite (Put_fresh _ _ _ H). unfold Get.
  rewrite (assoc_app_fresh _ _ _ H). simpl.
  now rewrite (Put_app_last _ _ _ _ H).
Qed.

Lemma identifiers_snoc (done : list Issue) (i : Issue) :
  identifiers (done ++ [i]) = identifiers done ++ [repoFullName i].
Proof. unfold identifiers. now rewrite map_app. Qed.

Lemma tallied_key_seen (done : list Issue) (tbl : object Cell) (k : jsstring) :
  tallied done tbl -> In k (map fst tbl) -> In k (identifiers done).
Proof. intros H Hk. now apply (tallied_keys H). Qed.

Lemma tallied_order_snoc (done : list Issue) (tbl : object Cell) (k : jsstring) :
  tallied done tbl ->
  StronglySorted (seenBefore (identifiers done ++ [k])) (map fst tbl).
Proof.
  intros H. eapply StronglySorted_ext_in; [|apply (tallied_order H)].
  intros x y Hx Hy. unfold seenBefore.
  rewrite !firstIndex_app_old by (eapply tallied_key_seen; eauto). auto.
Qed.

Lemma tallied_cell_kept (done : list Issue) (tbl : object Cell)
    (i : Issue) (k : jsstring) (c : Cell) :
  tallied done tbl -> In (k, c) tbl -> k <> repoFullName i ->
  cell_count c = Z.of_nat (occurrences k (identifiers (done ++ [i])))
  /\ exists first, firstRecord k (done ++ [i]) = Some first
                   /\ cell_url c = webUrl first.
Proof.
  intros H Hin Hne. destruct (tallied_cells H _ _ Hin) as (Hc & first & Hf & Hu).
  split.
  - rewrite identifiers_snoc, occurrences_app, occurrences_one.
    apply str_eqb_neq in Hne. rewrite Hne, Hc. f_equal. lia.
  - exists first. split; [now apply firstRecord_app_old|exact Hu].
Qed.

Lemma tallied_seen (done : list Issue) (tbl : object Cell) (i : Issue) (c : Cell) :
  tallied done tbl -> assoc (repoFullName i) tbl = Some c ->
  tallied (done ++ [i])
    (Put tbl (repoFullName i)
       {| cell_count := cell_count c + 1; cell_url := cell_url c |}).
Proof.
  intros H Ha. pose proof (tallied_NoDup H) as Hnd.
  pose proof (assoc_In _ _ Ha) as Hin.
  assert (Hk : In (repoFullName i) (map fst tbl)).
  { apply in_map_iff. now exists (repoFullName i, c). }
  constructor.
  - intros k. rewrite (Put_keys _ _ _ Ha), (tallied_keys H k), identifiers_snoc, in_app_iff.
    simpl. split; [tauto|]. intros [[H1|[H1|[]]] H2]; [tauto|].
    subst k. apply (tallied_keys H) in Hk. tauto.
  - rewrite (Put_keys _ _ _ Ha), identifiers_snoc. now apply tallied_order_snoc.
  - intros k c' Hc'. apply (Put_In _ _ _ _ Hnd) in Hc' as [Hc'|[Hc' Hne]].
    + injection Hc' as -> ->. simpl.
      destruct (tallied_cells H _ _ Hin) as (Hc & first & Hf & Hu). split.
      * rewrite identifiers_snoc, occurrences_app, occurrences_one, str_eqb_refl, Hc. lia.
      * exists first. split; [now apply firstRecord_app_old|exact Hu].
    + eapply tallied_cell_kept; eauto.
Qed.

Lemma tallied_inherited (done : list Issue) (tbl : object Cell) (i : Issue) (b : builtin) :
  tallied done tbl -> inherited (repoFullName i) = Some b ->
  tallied (done ++ [i]) tbl.
Proof.
  intros H Hb. constructor.
  - intros k. rewrite (tallied_keys H k), identifiers_snoc, in_app_iff. simpl.
    split; [tauto|]. intros [[H1|[H1|[]]] H2]; [tauto|]. congruence.
  - rewrite identifiers_snoc. now apply tallied_order_snoc.
  - intros k c Hc. eapply tallied_cell_kept; eauto.
    intros ->. assert (Hk : In (repoFullName i) (map fst tbl)).
    { apply in_map_iff. now exists (repoFullName i, c). }
    apply (tallied_keys H) in Hk. destruct Hk. congruence.
Qed.

Lemma tallied_new (done : list Issue) (tbl : object Cell) (i : Issue) :
  tallied done tbl ->
  assoc (repoFullName i) tbl = None -> inherited (repoFullName i) = None ->
  tallied (done ++ [i])
    (tbl ++ [(repoFullName i, {| cell_count := 0 + 1; cell_url := webUrl i |})]).
Proof.
  intros H Ha Hb.
  assert (Hnew : ~ In (repoFullName i) (identifiers done)).
  { intros Hin. apply assoc_None in Ha. apply Ha. apply (tallied_keys H). tauto. }
  constructor.
  - intros k. rewrite map_app, !in_app_iff, (tallied_keys H k), identifiers_snoc, in_app_iff.
    simpl. split.
    + intros [H1|[H1|[]]]; [tauto|]. subst k. tauto.
    + intros [[H1|[H1|[]]] H2]; tauto.
  - rewrite map_app, identifiers_snoc. simpl.
    apply StronglySorted_snoc; [now apply tallied_order_snoc|].
    rewrite Forall_forall. intros x Hx. unfold seenBefore.
    assert (Hseen : In x (identifiers done)) by (eapply tallied_key_seen; eauto).
    rewrite firstIndex_app_old by exact Hseen.
    rewrite firstIndex_app_new by exact Hnew.
    now apply firstIndex_In.
  - intros k c Hc. apply in_app_iff in Hc as [Hc|[Hc|[]]].
    + eapply tallied_cell_kept; eauto. intros ->.
      apply assoc_None in Ha. apply Ha. apply in_map_iff. now exists (repoFullName i, c).
    + injection Hc as <- <-. simpl. split.
      * rewrite identifiers_snoc, occurrences_app, occurrences_one, str_eqb_refl.
        now rewrite occurrences_absent by exact Hnew.
      * exists i. split; [now apply firstRecord_app_new|reflexivity].
Qed.

(** One record: the callback does not throw and keeps the tally. *)
Lemma callback_tallied (rho : Realm) (done : list Issue) (tbl : object Cell) (i : Issue) :
  tallied done tbl ->
  exists rho' tbl',
    forEach_callback rho tbl i = (rho', inr tbl')
    /\ tallied (done ++ [i]) tbl'
    /\ (inherited (repoFullName i) = None -> rho' = rho).
Proof.
  intros H. destruct (assoc (repoFullName i) tbl) as [c|] eqn:Ha.
  - eexists _, _. split; [apply callback_seen; eassumption|].
    split; [now apply tallied_seen|reflexivity].
  - destruct (inherited (repoFullName i)) as [b|] eqn:Hb.
    + eexists _, _. split; [apply callback_inherited; eassumption|].
      split; [eapply tallied_inherited; eassumption|discriminate].
    + eexists _, _. split; [apply callback_new; assumption|].
      split; [now apply tallied_new|reflexivity].
Qed.

(** The loop: no record makes it throw, and the tally is kept. *)
Lemma forEach_tallied (items done : list Issue) (rho : Realm) (tbl : object Cell) :
  tallied done tbl ->
  exists rho' tbl',
    forEach rho tbl items = (rho', inr tbl')
    /\ tallied (done ++ items) tbl'
    /\ (Forall (fun i => inherited (repoFullName i) = None) items -> rho' = rho).
Proof.
  revert done rho tbl. induction items as [|i items IH]; intros done rho tbl H; simpl.
  - exists rho, tbl. rewrite app_nil_r. auto.
  - destruct (callback_tallied rho i H) as (rho1 & tbl1 & Hcb & H1 & Hr1).
    rewrite Hcb. destruct (IH _ rho1 _ H1) as (rho2 & tbl2 & Hfe & H2 & Hr2).
    exists rho2, tbl2. split; [exact Hfe|]. split.
    + now rewrite <- app_assoc in H2.
    + intros Hall. inversion Hall; subst. rewrite Hr2, Hr1; auto.
Qed.

(** *** Identifiers of well-formed URLs

    A URL with a [/] in it has an identifier with a [/] in it, which is
    neither an array index nor the name of an inherited property. *)

Lemma split_two_segments (sep : code_unit) (s : jsstring) :
  In sep s -> (2 <= List.length (split sep s))%nat.
Proof.
  induction s as [|c s IH]; simpl; [intros []|].
  pose proof (split_not_nil sep s) as Hn.
  destruct (N.eqb c sep) eqn:E.
  - intros _. destruct (split sep s); simpl; [congruence|lia].
  - apply N.eqb_neq in E. intros [H|H]; [congruence|].
    specialize (IH H). destruct (split sep s); simpl in *; lia.
Qed.

Lemma slice_last_two (A : Type) (l : list A) :
  (2 <= List.length l)%nat ->
  exists a b, slice l (-2) None = [a; b].
Proof.
  intros Hlen. unfold slice, relativeIndex.
  replace (-2 <? 0)%Z with true by reflexivity.
  set (n := List.length l) in *.
  replace (Z.max (Z.of_nat n + -2) 0) with (Z.of_nat (n - 2)) by lia.
  replace (Z.to_nat (Z.of_nat n - Z.of_nat (n - 2))) with 2%nat by lia.
  rewrite Nat2Z.id.
  assert (Hs : List.length (skipn (n - 2) l) = 2%nat).
  { rewrite length_skipn. subst n. lia. }
  destruct (skipn (n - 2) l) as [|a [|b [|c r]]]; simpl in Hs; try discriminate.
  now exists a, b.
Qed.

Lemma repoFullName_slash (i : Issue) :
  In (ch "/") (repository_url i) -> In (ch "/") (repoFullName i).
Proof.
  intros H. unfold repoFullName.
  pose proof (split_two_segments _ _ H) as Hlen.
  apply slice_last_two in Hlen as (a & b & ->).
  simpl. apply in_or_app. right. now left.
Qed.

Lemma slash_not_arrayIndex (k : jsstring) :
  In (ch "/") k -> isArrayIndex k = false.
Proof.
  intros H. unfold isArrayIndex, arrayIndex. destruct k as [|c k]; [reflexivity|].
  destruct (forallb isDigit (c :: k)) eqn:E; [|reflexivity].
  rewrite forallb_forall in E. specialize (E _ H). discriminate.
Qed.

Lemma assoc_absent_char (V : Type) (x : code_unit) (k : jsstring)
    (l : list (jsstring * V)) :
  In x k -> forallb (fun p => negb (existsb (N.eqb x) (fst p))) l = true ->
  assoc k l = None.
Proof.
  intros Hx. induction l as [|[k' v] l IH]; simpl; [reflexivity|].
  intros H. apply andb_true_iff in H as [Hk' Hl].
  destruct (str_eqb k k') eqn:E; [|auto].
  apply str_eqb_eq in E. subst k'. apply negb_true_iff in Hk'.
  assert (Hex : existsb (N.eqb x) k = true).
  { apply existsb_exists. exists x. split; [exact Hx|apply N.eqb_refl]. }
  congruence.
Qed.

Lemma slash_not_inherited (k : jsstring) :
  In (ch "/") k -> inherited k = None.
Proof.
  intros H. unfold inherited. eapply assoc_absent_char; [exact H|].
  vm_compute. reflexivity.
Qed.

Lemma wellFormed_plain (items : list Issue) :
  Forall (fun i => In (ch "/") (repository_url i)) items ->
  Forall (fun i => inherited (repoFullName i) = None) items
  /\ Forall (fun i => isArrayIndex (repoFullName i) = false) items.
Proof.
  intros H. split; eapply Forall_impl; try exact H; intros i Hi; simpl in *.
  - now apply slash_not_inherited, repoFullName_slash.
  - now apply slash_not_arrayIndex, repoFullName_slash.
Qed.

Lemma map_repo_toRepo (tbl : object Cell) : map repo (map toRepo tbl) = map fst tbl.
Proof. rewrite map_map. reflexivity. Qed.

(** Aggregation never throws; its result is the sorted listing of a table
    that tallies the input. *)
Lemma aggregate_tallied (rho : Realm) (items : list Issue) :
  exists rho' tbl,
    tallied items tbl
    /\ aggregate rho items =
         (rho', inr (sort byCountDesc (map toRepo (Object_entries tbl))))
    /\ (Forall (fun i => inherited (repoFullName i) = None) items -> rho' = rho).
Proof.
  destruct (forEach_tallied items rho tallied_nil) as (rho' & tbl & Hfe & Ht & Hr).
  exists rho', tbl. unfold aggregate. rewrite Hfe. auto.
Qed.

Lemma aggregate_Permutation (tbl : object Cell) :
  Permutation (sort byCountDesc (map toRepo (Object_entries tbl))) (map toRepo tbl).
Proof.
  rewrite <- sort_Permutation. apply Permutation_map, Object_entries_Permutation.
Qed.

Lemma tallied_entryOf (items : list Issue) (tbl : object Cell) (e : Repo) :
  tallied items tbl -> In e (map toRepo tbl) ->
  entryOf items e /\ In (repo e) (identifiers items).
Proof.
  intros Ht He. apply in_map_iff in He as ([k c] & <- & Hin). simpl. split.
  - exact (tallied_cells Ht _ _ Hin).
  - apply (tallied_keys Ht). apply in_map_iff. now exists (k, c).
Qed.


Lemma tallied_ranked (items : list Issue) (tbl : object Cell) :
  tallied items tbl ->
  Forall (fun i => isArrayIndex (repoFullName i) = false) items ->
  StronglySorted
    (keyThenInput count
       (fun a b => seenBefore (identifiers items) (repo a) (repo b)))
    (sort byCountDesc (map toRepo (Object_entries tbl))).
Proof.
  intros Ht Hidx.
  rewrite Object_entries_creation_order.
  - apply (@sort_ranked Repo count
             (fun a b => seenBefore (identifiers items) (repo a) (repo b))).
    apply (proj2 (@StronglySorted_map Repo jsstring repo
                    (seenBefore (identifiers items)) (map toRepo tbl))).
    rewrite map_repo_toRepo. exact (tallied_order Ht).
  - rewrite Forall_forall in *. intros k Hk.
    apply (tallied_keys Ht) in Hk as [Hk _].
    apply in_map_iff in Hk as (i & <- & Hi). auto.
Qed.

End AggregateFacts.

(* ================================================================== *)
(** ** Properties of the specification *)
(* ================================================================== *)

Import JS Finder Spec Samples JSFacts ObjectFacts AggregateFacts.

Unset Implicit Arguments.

(** *** Query builder *)

Lemma whitespace_has_no_comma (raw : jsstring) :
  forallb isWhiteSpace raw = true -> ~ In (ch ",") raw.
Proof.
  intros H Hin. rewrite forallb_forall in H. specialize (H _ Hin). discriminate.
Qed.

Example queryString_empty : queryString [] = [].
Proof. reflexivity. Qed.

Example queryString_blank_segments :
  queryString (u16 "  ,  ,bug") = u16 "label:bug".
Proof. reflexivity. Qed.

(** C3. The query is built from the comma-separated segments of the raw
    text, each trimmed, the empty ones dropped, each remaining label [L]
    turned into [label:L], joined with [+]; empty or all-white-space text
    gives the empty query; the text "hacktoberfest, good-first-issue" gives
    "label:hacktoberfest+label:good-first-issue". *)
Theorem queryString_spec (raw : jsstring) :
  (exists segments labels,
      splits_into (ch ",") raw segments
      /\ Forall2 trimmed segments labels
      /\ queryString raw =
           join (u16 "+")
             (map (fun L => u16 "label:" ++ L)
                  (filter (fun L => negb (str_eqb L [])) labels)))
  /\ (forallb isWhiteSpace raw = true -> queryString raw = [])
  /\ queryString (u16 "hacktoberfest, good-first-issue")
     = u16 "label:hacktoberfest+label:good-first-issue".
Proof.
  split; [|split].
  - exists (split (ch ",") raw), (map trim (split (ch ",") raw)).
    split; [apply split_splits_into|]. split.
    + induction (split (ch ",") raw) as [|seg segs IH]; simpl; constructor;
        [apply trim_trimmed|exact IH].
    + unfold queryString, tagList. do 2 f_equal.
      apply filter_ext. now intros [|c L].
  - intros Hws. unfold queryString, tagList.
    rewrite (split_no_sep _ _ (whitespace_has_no_comma _ Hws)). simpl.
    now rewrite (trim_all_ws _ Hws).
  - reflexivity.
Qed.

Lemma queryString_spec_witness :
  forallb isWhiteSpace (u16 "   ") = true /\ queryString (u16 "   ") = [].
Proof.
  split; [reflexivity|].
  apply (proj1 (proj2 (queryString_spec (u16 "   ")))). reflexivity.
Defined.

(** *** Aggregator *)

Example repoFullName_octocat :
  repoFullName (issue "https://api.github.com/repos/octocat/Hello-World")
  = u16 "octocat/Hello-World".
Proof. reflexivity. Qed.

Example webUrl_octocat :
  webUrl (issue "https://api.github.com/repos/octocat/Hello-World")
  = u16 "https://github.com/octocat/Hello-World".
Proof. reflexivity. Qed.

Lemma split_app_sep (sep : code_unit) (a b : jsstring) :
  split sep (a ++ sep :: b) = split sep a ++ split sep b.
Proof.
  induction a as [|c a IH]; simpl.
  - now rewrite N.eqb_refl.
  - destruct (N.eqb c sep); rewrite IH; [reflexivity|].
    pose proof (split_not_nil sep a) as Hn.
    destruct (split sep a); [congruence|reflexivity].
Qed.

Lemma slice_last_two_app (A : Type) (l : list A) (a b : A) :
  slice (l ++ [a; b]) (-2) None = [a; b].
Proof.
  unfold slice, relativeIndex. rewrite length_app. simpl List.length.
  replace (-2 <? 0)%Z with true by reflexivity.
  replace (Z.max (Z.of_nat (List.length l + 2) + -2) 0)
    with (Z.of_nat (List.length l)) by lia.
  replace (Z.to_nat (Z.of_nat (List.length l + 2) - Z.of_nat (List.length l)))
    with 2%nat by lia.
  rewrite Nat2Z.id, skipn_app, skipn_all, Nat.sub_diag. reflexivity.
Qed.

(** The identifier is made of the last two segments of the URL. *)
Lemma repoFullName_last_two (front owner name : jsstring) :
  ~ In (ch "/") owner -> ~ In (ch "/") name ->
  repoFullName {| repository_url := front ++ u16 "/" ++ owner ++ u16 "/" ++ name |}
  = owner ++ u16 "/" ++ name.
Proof.
  intros Ho Hn. unfold repoFullName. simpl repository_url.
  change (u16 "/" ++ owner ++ u16 "/" ++ name)
    with (ch "/" :: owner ++ ch "/" :: name).
  rewrite split_app_sep, split_app_sep.
  rewrite (split_no_sep 47%N owner Ho), (split_no_sep 47%N name Hn).
  change ([owner] ++ [name]) with [owner; name].
  now rewrite slice_last_two_app.
Qed.

(** The link of a GitHub API URL is the page of the repository. *)
Lemma webUrl_github (path : jsstring) :
  webUrl {| repository_url := u16 "https://api.github.com/repos" ++ path |}
  = u16 "https://github.com" ++ path.
Proof. reflexivity. Qed.

Example aggregate_threeIssues :
  aggregate freshRealm threeIssues =
    (freshRealm, inr [ row "a/b" 2 "https://github.com/a/b";
                       row "c/d" 1 "https://github.com/c/d" ]).
Proof. reflexivity. Qed.

Lemma existsb_In (x : code_unit) (s : jsstring) :
  existsb (N.eqb x) s = true -> In x s.
Proof.
  intros H. apply existsb_exists in H as (y & Hy & E).
  apply N.eqb_eq in E. now subst.
Qed.



(** A URL without [/] is not a repository URL.  On such a record the
    identifier is the whole string, and when that string is the name of an
    inherited property, as [constructor] is, the result has no entry for
    it (see C10). *)
Lemma inherited_identifier_has_no_entry :
  ~ (exists rho' out,
        aggregate freshRealm [issue "constructor"] = (rho', inr out)
        /\ oneEntryPerIdentifier [issue "constructor"] out).
Proof.
  intros (rho' & out & Hagg & _ & Hkeys & _).
  assert (Hout : out = []).
  { change (aggregate freshRealm [issue "constructor"])
      with ([ObjectConstructor], @inr thrown (list Repo) []) in Hagg.
    congruence. }
  subst out. apply (Hkeys (u16 "constructor")). now left.
Qed.

(** C2.  The result of aggregation is sorted by count, largest first; and
    for every sequence of issue records, whose repository URL ends in
    [.../<owner>/<name>] and so holds a [/], entries with equal counts
    stand in the order in which their identifiers were first met in the
    input. *)
Theorem aggregate_ranked_first_seen (rho : Realm) (items : list Issue) :
  exists rho' out,
    aggregate rho items = (rho', inr out)
    /\ descending out
    /\ (Forall (fun i => In (ch "/") (repository_url i)) items ->
        tiesInFirstSeenOrder items out).
Proof.
  destruct (aggregate_tallied rho items) as (rho' & tbl & Ht & Hagg & _).
  eexists rho', _. split; [exact Hagg|]. split.
  - assert (Hany : forall l : list Repo, StronglySorted (fun _ _ => True) l).
    { induction l as [|x l IH]; constructor; [exact IH|].
      apply Forall_forall. auto. }
    pose proof (@sort_ranked Repo count (fun _ _ => True) _
                  (Hany (map toRepo (Object_entries tbl)))) as Hsorted.
    intros l1 a l2 b l3 Heq.
    destruct (StronglySorted_pair _ _ _ _ _ Hsorted Heq) as [H|[H _]]; lia.
  - intros Hurls. destruct (wellFormed_plain Hurls) as [_ Hidx].
    pose proof (tallied_ranked Ht Hidx) as Hsorted.
    intros l1 a l2 b l3 Heq Hcount.
    destruct (StronglySorted_pair _ _ _ _ _ Hsorted Heq) as [H|[_ H]]; [lia|].
    split; [exact H|]. apply firstIndex_In.
    eapply tallied_entryOf; [exact Ht|].
    eapply Permutation_in; [apply aggregate_Permutation|].
    rewrite Heq. apply in_or_app. right. right. apply in_or_app. right. now left.
Qed.

Lemma aggregate_ranked_first_seen_witness :
  exists rho' out,
    aggregate freshRealm tiedIssues = (rho', inr out)
    /\ descending out /\ tiesInFirstSeenOrder tiedIssues out.
Proof.
  destruct (aggregate_ranked_first_seen freshRealm tiedIssues)
    as (rho' & out & Hagg & Hdesc & Hties).
  exists rho', out. split; [exact Hagg|]. split; [exact Hdesc|].
  apply Hties. repeat (apply Forall_cons; [apply existsb_In; reflexivity|]). apply Forall_nil.
Defined.

Example aggregate_tiedIssues :
  aggregate freshRealm tiedIssues =
    (freshRealm, inr [ row "c/d" 2 "https://github.com/c/d";
                       row "a/b" 2 "https://github.com/a/b";
                       row "e/f" 1 "https://github.com/e/f" ]).
Proof. reflexivity. Qed.

(** On URLs without [/] an identifier can be an array index, which
    [Object.entries] lists before the other keys: of [b] and [1], each met
    once, [1] comes first. *)
Lemma array_index_identifier_listed_first :
  ~ (exists rho' out,
        aggregate freshRealm [issue "b"; issue "1"] = (rho', inr out)
        /\ descending out
        /\ tiesInFirstSeenOrder [issue "b"; issue "1"] out).
Proof.
  intros (rho' & out & Hagg & _ & Hties).
  assert (Hout : out = [row "1" 1 "1"; row "b" 1 "b"]).
  { change (aggregate freshRealm [issue "b"; issue "1"])
      with (freshRealm, @inr thrown (list Repo) [row "1" 1 "1"; row "b" 1 "b"])
      in Hagg.
    congruence. }
  subst out.
  specialize (Hties [] (row "1" 1 "1") [] (row "b" 1 "b") [] eq_refl eq_refl).
  vm_compute in Hties. destruct Hties as [H _].
  apply Nat.lt_irrefl with 1%nat. apply Nat.lt_trans with 0%nat; [exact H|constructor].
Qed.

(** The table the callback leaves does not depend on the realm. *)
Lemma callback_table (tbl : object Cell) (i : Issue) :
  exists tbl', forall rho, exists rho',
    forEach_callback rho tbl i = (rho', inr tbl').
Proof.
  destruct (assoc (repoFullName i) tbl) as [c|] eqn:Ha.
  - eexists. intros rho. exists rho. apply callback_seen. exact Ha.
  - destruct (inherited (repoFullName i)) as [b|] eqn:Hb.
    + eexists. intros rho. eexists. apply callback_inherited; eassumption.
    + eexists. intros rho. exists rho. apply callback_new; assumption.
Qed.

Lemma forEach_table (items : list Issue) (tbl : object Cell) :
  exists tbl', forall rho, exists rho', forEach rho tbl items = (rho', inr tbl').
Proof.
  revert tbl. induction items as [|i items IH]; intros tbl; simpl.
  - exists tbl. intros rho. now exists rho.
  - destruct (callback_table tbl i) as (tbl1 & H1).
    destruct (IH tbl1) as (tbl2 & H2).
    exists tbl2. intros rho. destruct (H1 rho) as (rho1 & ->). apply H2.
Qed.

(** Aggregation returns, and returns the same list in every realm. *)
Lemma aggregate_output (items : list Issue) :
  exists out, forall rho, exists rho', aggregate rho items = (rho', inr out).
Proof.
  destruct (forEach_table items []) as (tbl & H).
  eexists. intros rho. destruct (H rho) as (rho' & Hfe).
  exists rho'. unfold aggregate. now rewrite Hfe.
Qed.

(** C9.  Aggregation returns one list for its input, the same whenever
    and in whatever state it is applied; and for every sequence of issue
    records, whose repository URL ends in [.../<owner>/<name>] and so holds
    a [/], it has no effect on any other state: it is a pure function of
    its input. *)
Theorem aggregate_pure (items : list Issue) :
  exists out,
    (forall rho, snd (aggregate rho items) = inr out)
    /\ (Forall (fun i => In (ch "/") (repository_url i)) items ->
        forall rho, aggregate rho items = (rho, inr out)).
Proof.
  destruct (aggregate_output items) as (out & Hout).
  exists out. split.
  - intros rho. destruct (Hout rho) as (rho' & ->). reflexivity.
  - intros Hurls rho. destruct (wellFormed_plain Hurls) as [Hplain _].
    destruct (Hout rho) as (rho' & Hagg).
    destruct (aggregate_tallied rho items) as (rho'' & tbl & _ & Hagg' & Hsame).
    rewrite Hagg. f_equal. rewrite Hagg' in Hagg.
    injection Hagg as <- _. now apply Hsame.
Qed.

Lemma aggregate_pure_witness : pureOn threeIssues.
Proof.
  destruct (aggregate_pure threeIssues) as (out & _ & Hpure).
  exists out. apply Hpure. repeat (apply Forall_cons; [apply existsb_In; reflexivity|]). apply Forall_nil.
Defined.

(** On a record whose URL is [constructor], not a repository URL, the loop
    runs [Object.count++], which leaves a property on the built-in [Object]
    (see C10). *)
Lemma inherited_identifier_changes_realm : ~ pureOn [issue "constructor"].
Proof.
  intros (out & H). specialize (H freshRealm).
  change (aggregate freshRealm [issue "constructor"])
    with ([ObjectConstructor], @inr thrown (list Repo) []) in H.
  discriminate.
Qed.

(** A URL without [/] that names no inherited property is counted under
    the whole string, with the URL as its link. *)
Lemma replace_absent (pat rep s : jsstring) :
  includes pat s = false -> replace pat rep s = s.
Proof.
  induction s as [|c s IH]; simpl; intros H; apply orb_false_iff in H as [H1 H2];
    rewrite H1; [reflexivity|]. now rewrite IH.
Qed.

Lemma startsWith_In (pat s : jsstring) (x : code_unit) :
  startsWith pat s = true -> In x pat -> In x s.
Proof.
  revert s. induction pat as [|p pat IH]; intros [|c s]; simpl; try easy.
  intros H. apply andb_true_iff in H as [Hp Hs]. apply N.eqb_eq in Hp. subst c.
  intros [Hx|Hx]; [now left|right; auto].
Qed.

Lemma includes_In (pat s : jsstring) (x : code_unit) :
  includes pat s = true -> In x pat -> In x s.
Proof.
  induction s as [|c s IH]; intros H Hx; simpl in H;
    apply orb_true_iff in H as [H|H]; try discriminate.
  - exact (startsWith_In _ _ _ H Hx).
  - exact (startsWith_In _ _ _ H Hx).
  - right. auto.
Qed.

Lemma malformed_url_counted_whole (rho : Realm) (u : jsstring) :
  ~ In (ch "/") u -> inherited u = None ->
  aggregate rho [{| repository_url := u |}]
  = (rho, inr [{| repo := u; count := 1; url := u |}]).
Proof.
  intros Hslash Hplain.
  assert (Hname : repoFullName {| repository_url := u |} = u).
  { unfold repoFullName. simpl. now rewrite split_no_sep. }
  assert (Hurl : webUrl {| repository_url := u |} = u).
  { unfold webUrl. simpl. apply replace_absent.
    destruct (includes _ u) eqn:E; [|reflexivity].
    exfalso. apply Hslash. eapply includes_In; [exact E|].
    vm_compute. tauto. }
  unfold aggregate. simpl forEach.
  rewrite callback_new by (rewrite ?Hname; auto).
  rewrite Hname, Hurl. unfold Object_entries. simpl.
  destruct (isArrayIndex u); reflexivity.
Qed.

(** C10.  The record [{repository_url: "constructor"}] raises no error, and
    it is not counted: the read [repoIssueCount["constructor"]] finds the
    inherited [Object], so nothing is inserted and [count++] lands on
    [Object]. *)
Theorem inherited_identifier_not_counted :
  aggregate freshRealm [{| repository_url := u16 "constructor" |}]
  = ([ObjectConstructor], inr []).
Proof. reflexivity. Qed.

(** *** Pagination *)

Lemma Math_ceil_div_spec (n d : Z) :
  (0 < d)%Z ->
  ((Math_ceil_div n d - 1) * d < n <= Math_ceil_div n d * d)%Z.
Proof.
  intros Hd. unfold Math_ceil_div.
  pose proof (Z.div_mod (- n) d ltac:(lia)) as Hdm.
  pose proof (Z.mod_pos_bound (- n) d Hd) as Hm.
  nia.
Qed.

Lemma paginate_window (results : list Repo) (p : Z) :
  (1 <= p)%Z ->
  paginate results p = firstn 10 (skipn (Z.to_nat ((p - 1) * 10)) results).
Proof.
  intros Hp. unfold paginate, slice, relativeIndex, ITEMS_PER_PAGE.
  set (len := List.length results).
  replace ((p - 1) * 10 <? 0)%Z with false by lia.
  replace (p * 10 <? 0)%Z with false by lia.
  destruct (Z_lt_le_dec ((p - 1) * 10) (Z.of_nat len)) as [Hin|Hout].
  - rewrite (Z.min_l ((p - 1) * 10)) by lia.
    destruct (Z_le_gt_dec (p * 10) (Z.of_nat len)) as [Hfull|Hshort].
    + rewrite Z.min_l by lia. f_equal. lia.
    + rewrite Z.min_r by lia.
      rewrite !firstn_all2; [reflexivity| |]; rewrite length_skipn; fold len; lia.
  - rewrite (Z.min_r ((p - 1) * 10)) by lia.
    rewrite Nat2Z.id. unfold len. rewrite skipn_all. rewrite firstn_nil.
    rewrite skipn_all2 by lia. now rewrite firstn_nil.
Qed.

(** C4.  For a page index [p >= 1] the page is the window of the list from
    [(p-1)*10] up to, not including, [p*10], cut at the end of the list;
    the number of pages is the least integer not below [length / 10]; with
    25 results there are 3 pages, page 1 holds items 0 to 9 and page 3 the
    five items 20 to 24. *)
Theorem paginate_spec (st : State) :
  (1 <= currentPage st)%Z ->
  (forall j : nat,
      nth_error (paginatedRepos st) j =
        if (j <? 10)%nat
        then nth_error (repos st) (Z.to_nat ((currentPage st - 1) * 10) + j)
        else None)
  /\ ((totalPages st - 1) * 10 < Z.of_nat (List.length (repos st))
      <= totalPages st * 10)%Z
  /\ (List.length (repos st) = 25%nat ->
      totalPages st = 3%Z
      /\ paginate (repos st) 1 = firstn 10 (repos st)
      /\ paginate (repos st) 3 = skipn 20 (repos st)
      /\ List.length (paginate (repos st) 3) = 5%nat).
Proof.
  intros Hp. split; [|split].
  - intros j. unfold paginatedRepos. rewrite (paginate_window _ _ Hp).
    destruct (j <? 10)%nat eqn:E.
    + apply Nat.ltb_lt in E. rewrite nth_error_firstn.
      replace (j <? 10)%nat with true by (symmetry; now apply Nat.ltb_lt).
      now rewrite nth_error_skipn.
    + apply Nat.ltb_ge in E. apply nth_error_None.
      rewrite length_firstn. lia.
  - apply (Math_ceil_div_spec _ 10). lia.
  - intros Hlen.
    assert (Hskip : List.length (skipn 20 (repos st)) = 5%nat).
    { rewrite length_skipn. lia. }
    split; [|split; [|split]].
    + unfold totalPages. rewrite Hlen. reflexivity.
    + now rewrite paginate_window by lia.
    + rewrite paginate_window by lia. change (Z.to_nat ((3 - 1) * 10)) with 20%nat.
      apply firstn_all2. lia.
    + rewrite paginate_window by lia. change (Z.to_nat ((3 - 1) * 10)) with 20%nat.
      rewrite firstn_all2 by lia. exact Hskip.
Qed.

Lemma paginate_spec_witness :
  (1 <= currentPage twentyFive)%Z
  /\ totalPages twentyFive = 3%Z
  /\ List.length (paginate (repos twentyFive) 3) = 5%nat.
Proof.
  assert (Hp : (1 <= currentPage twentyFive)%Z) by (simpl; lia).
  destruct (paginate_spec twentyFive Hp) as (_ & _ & H).
  destruct (H eq_refl) as (Ht & _ & _ & Hl).
  split; [exact Hp|]. split; [exact Ht|exact Hl].
Defined.

(** *** The fetch cycle *)

Lemma tryBlock_failed (rho : Realm) (r : outcome) :
  failed r -> exists e, tryBlock rho r = (rho, inl e).
Proof.
  destruct r as [|status body]; simpl.
  - intros _. now eexists.
  - intros [H|H].
    + rewrite H. simpl. now eexists.
    + subst body. destruct (ok status); simpl; now eexists.
Qed.

Lemma fetchSettle_failed (st : State) (rho : Realm) (r : outcome) :
  failed r ->
  fetchSettle st rho r =
    (setLoading false (setError (Some fetchErrorMessage) st), rho).
Proof.
  intros H. unfold fetchSettle.
  destruct (tryBlock_failed rho r H) as (e & ->). reflexivity.
Qed.

(** C5, as amended.  Every failed fetch cycle, whether the status is not a
    success or the request or the parsing fails, shows the one message
    "An error occurred while fetching issues. Please try again."; the
    [Error('Failed to fetch issues')] thrown on a non-success status is
    caught by the same handler and its text is not part of what is shown. *)
Theorem fetch_failure_message (st : State) (rho : Realm) (r : outcome) :
  failed r ->
  shown st rho r
    = Some (u16 "An error occurred while fetching issues. Please try again.")
  /\ (forall status body, ok status = false ->
        snd (tryBlock rho (Response status body))
          = inl (Error (u16 "Failed to fetch issues")))
  /\ includes (u16 "Failed to fetch issues")
       (u16 "An error occurred while fetching issues. Please try again.")
     = false.
Proof.
  intros H. split; [|split].
  - unfold shown. now rewrite (fetchSettle_failed st rho r H).
  - intros status body Hok. simpl. now rewrite Hok.
  - reflexivity.
Qed.

Lemma fetch_failure_message_witness :
  shown afterSearch freshRealm (Response 500 None)
    = Some (u16 "An error occurred while fetching issues. Please try again.").
Proof.
  apply (fetch_failure_message afterSearch freshRealm (Response 500 None)).
  left. reflexivity.
Defined.

(** C5 as stated fails: a response with status 500 and a failed request do
    not show two distinct messages. *)
Lemma http_failure_message_not_distinct :
  ~ (exists m1 m2,
        shown initialState freshRealm (Response 500 None) = Some m1
        /\ shown initialState freshRealm NetworkFailure = Some m2
        /\ m1 <> m2).
Proof.
  intros (m1 & m2 & H1 & H2 & Hne). apply Hne.
  unfold shown in H1, H2.
  rewrite fetchSettle_failed in H1 by (left; reflexivity).
  rewrite fetchSettle_failed in H2 by exact I.
  simpl in H1, H2. congruence.
Qed.

(** C6.  A fetch cycle that fails leaves the stored results as they were,
    next to the error message; the results change only when the cycle
    succeeds, and then to the aggregated list. *)
Theorem failed_fetch_keeps_repos (st : State) (rho : Realm) (r : outcome) :
  failed r ->
  repos (fst (fetchStart st)) = repos st
  /\ repos (fst (fetchSettle (fst (fetchStart st)) rho r)) = repos st
  /\ error (fst (fetchSettle (fst (fetchStart st)) rho r))
     = Some fetchErrorMessage.
Proof.
  intros H. rewrite (fetchSettle_failed _ rho r H). simpl. auto.
Qed.

Lemma failed_fetch_keeps_repos_witness :
  repos (fst (fetchSettle (fst (fetchStart afterSearch)) freshRealm
                (Response 500 None)))
  = repos afterSearch.
Proof.
  apply (failed_fetch_keeps_repos afterSearch freshRealm (Response 500 None)).
  left. reflexivity.
Defined.

(** The other half: a cycle that succeeds replaces the results. *)
Lemma successful_fetch_replaces_repos (st : State) (rho : Realm)
    (status : Z) (items : list Issue) :
  ok status = true ->
  exists rho' out,
    aggregate rho items = (rho', inr out)
    /\ fetchSettle st rho (Response status (Some items))
       = (setLoading false (setRepos out st), rho').
Proof.
  intros Hok. destruct (aggregate_output items) as (out & Hout).
  destruct (Hout rho) as (rho' & Hagg).
  exists rho', out. split; [exact Hagg|].
  unfold fetchSettle. simpl. now rewrite Hok, Hagg.
Qed.

(** *** Interaction *)

Lemma str_eqb_longer (a b : jsstring) :
  b <> [] -> str_eqb a (a ++ b) = false.
Proof.
  intros Hb. apply str_eqb_neq. intros H.
  apply (f_equal (@List.length _)) in H. rewrite length_app in H.
  destruct b; [congruence|simpl in H; lia].
Qed.

Lemma newTags_changed (prev topic : jsstring) :
  topic <> [] ->
  str_eqb prev (newTags prev topic) = false
  /\ truthy_string (newTags prev topic) = true.
Proof.
  intros Ht. unfold newTags. destruct prev as [|c prev]; simpl.
  - destruct topic; [congruence|]. now split.
  - split; [|reflexivity]. rewrite N.eqb_refl. simpl.
    apply str_eqb_longer. discriminate.
Qed.

Lemma topic_click (st : State) (topic : jsstring) :
  topic <> [] ->
  handleTrendingTopicClick topic st
  = (setError None (setLoading true (setTags (newTags (tags st) topic) st)),
     [requestUrl (newTags (tags st) topic)]).
Proof.
  intros Ht. unfold handleTrendingTopicClick, tagsEffect. simpl tags.
  destruct (newTags_changed (tags st) topic Ht) as [-> ->]. reflexivity.
Qed.

Lemma fetchSettle_currentPage (st : State) (rho : Realm) (r : outcome) :
  currentPage (fst (fetchSettle st rho r)) = currentPage st.
Proof.
  unfold fetchSettle. destruct (tryBlock rho r) as [rho' [e|out]]; reflexivity.
Qed.

(** C7.  A submitted search starts a fetch and puts the page index back to
    1.  A click on any of the six topics appends the topic to the label
    text, which starts a fetch through the effect, and leaves the page index
    as it was, also once that fetch has settled. *)
Theorem page_reset_on_submit_only (st : State) (rho : Realm) :
  (let '(st', _, requests) := step st rho Submit in
   currentPage st' = 1%Z /\ requests = [requestUrl (tags st)])
  /\ Forall
       (fun topic =>
          let '(st', rho', requests) := step st rho (TopicClick topic) in
          tags st' = (if truthy_string (tags st)
                      then tags st ++ u16 "," ++ topic else topic)
          /\ requests = [requestUrl (tags st')]
          /\ currentPage st' = currentPage st
          /\ forall r,
               currentPage (fst (fst (step st' rho' (Settled r))))
               = currentPage st)
       trendingTopics.
Proof.
  split; [simpl; auto|].
  assert (H : forall topic, topic <> [] ->
            let '(st', rho', requests) := step st rho (TopicClick topic) in
            tags st' = newTags (tags st) topic
            /\ requests = [requestUrl (tags st')]
            /\ currentPage st' = currentPage st
            /\ forall r, currentPage (fst (fst (step st' rho' (Settled r))))
                         = currentPage st).
  { intros topic Ht. unfold step at 1. rewrite (topic_click st topic Ht).
    repeat split. intros r. unfold step.
    destruct (fetchSettle _ rho r) as [st2 rho2] eqn:E. simpl.
    change st2 with (fst (st2, rho2)). rewrite <- E.
    now rewrite fetchSettle_currentPage. }
  unfold trendingTopics. repeat constructor; apply H; discriminate.
Qed.

(** C8.  With the page index within [1, totalPages], Previous gives
    [max (index - 1) 1] and Next gives [min (index + 1) totalPages], both
    again within the range; Previous is disabled and changes nothing at 1,
    Next is disabled and changes nothing at [totalPages]. *)
Theorem page_navigation_clamped (st : State) :
  (1 <= currentPage st <= totalPages st)%Z ->
  currentPage (clickPrevious st) = Z.max (currentPage st - 1) 1
  /\ currentPage (clickNext st) = Z.min (currentPage st + 1) (totalPages st)
  /\ (1 <= currentPage (clickPrevious st) <= totalPages st)%Z
  /\ (1 <= currentPage (clickNext st) <= totalPages st)%Z
  /\ (currentPage st = 1%Z ->
      previousDisabled st = true /\ clickPrevious st = st)
  /\ (currentPage st = totalPages st ->
      nextDisabled st = true /\ clickNext st = st).
Proof.
  intros Hrange.
  assert (Hshown : pagerShown st = false -> totalPages st = 1%Z).
  { unfold pagerShown, totalPages, ITEMS_PER_PAGE in *. intros Hs.
    apply Z.ltb_ge in Hs.
    pose proof (Math_ceil_div_spec (Z.of_nat (List.length (repos st))) 10
                  ltac:(lia)). lia. }
  assert (Hprev : currentPage (clickPrevious st) = Z.max (currentPage st - 1) 1).
  { unfold clickPrevious, previousDisabled.
    destruct (pagerShown st) eqn:Es; simpl.
    - destruct (currentPage st =? 1)%Z eqn:E; simpl; [|reflexivity].
      apply Z.eqb_eq in E. lia.
    - specialize (Hshown eq_refl). lia. }
  assert (Hnext : currentPage (clickNext st)
                  = Z.min (currentPage st + 1) (totalPages st)).
  { unfold clickNext, nextDisabled.
    destruct (pagerShown st) eqn:Es; simpl.
    - destruct (currentPage st =? totalPages st)%Z eqn:E; simpl; [|reflexivity].
      apply Z.eqb_eq in E. lia.
    - specialize (Hshown eq_refl). lia. }
  repeat split; try lia.
  - unfold previousDisabled. now apply Z.eqb_eq.
  - unfold clickPrevious, previousDisabled.
    replace (currentPage st =? 1)%Z with true by (symmetry; now apply Z.eqb_eq).
    now rewrite andb_false_r.
  - unfold nextDisabled. now apply Z.eqb_eq.
  - unfold clickNext, nextDisabled.
    replace (currentPage st =? totalPages st)%Z with true
      by (symmetry; now apply Z.eqb_eq).
    now rewrite andb_false_r.
Qed.

Lemma page_navigation_clamped_witness :
  currentPage (clickPrevious twentyFive) = 1%Z
  /\ currentPage (clickNext twentyFive) = 3%Z.
Proof.
  assert (Hrange : (1 <= currentPage twentyFive <= totalPages twentyFive)%Z)
    by (vm_compute; split; discriminate).
  destruct (page_navigation_clamped twentyFive Hrange) as (Hp & Hn & _).
  split; [exact Hp|exact Hn].
Defined.

(* ================================================================== *)
(** ** Further properties of the component *)
(* ================================================================== *)

Import View.

(** *** Labels and the query *)

Lemma trim_nil_iff (s : jsstring) :
  trim s = [] <-> forallb isWhiteSpace s = true.
Proof.
  split; [|apply trim_all_ws].
  intros H. destruct (trim_trimmed s) as (l & r & Hs & Hl & Hr & _).
  rewrite H in Hs. simpl in Hs. rewrite Hs, forallb_app, Hl, Hr. reflexivity.
Qed.

Lemma split_cons (sep c : code_unit) (s : jsstring) :
  split sep (c :: s) =
    if N.eqb c sep then [] :: split sep s
    else match split sep s with
         | seg :: segs => (c :: seg) :: segs
         | [] => [[c]]
         end.
Proof. reflexivity. Qed.

Lemma split_all_blank (s : jsstring) :
  forallb (forallb isWhiteSpace) (split (ch ",") s) = forallb blank s.
Proof.
  induction s as [|c s IH]; [reflexivity|].
  change (forallb blank (c :: s)) with (blank c && forallb blank s).
  rewrite <- IH, split_cons. unfold blank.
  pose proof (split_not_nil (ch ",") s) as Hn.
  destruct (N.eqb c (ch ",")).
  - now rewrite orb_true_r.
  - rewrite orb_false_r.
    destruct (split (ch ",") s) as [|seg segs]; [congruence|].
    simpl. now rewrite andb_assoc.
Qed.

Lemma tagList_nil_iff (raw : jsstring) :
  tagList raw = [] <-> forallb blank raw = true.
Proof.
  rewrite <- split_all_blank. unfold tagList.
  induction (split (ch ",") raw) as [|seg segs IH]; simpl; [tauto|].
  destruct (trim seg) as [|c t] eqn:E; simpl.
  - apply trim_nil_iff in E. rewrite E. simpl. exact IH.
  - split; [discriminate|]. intros H. apply andb_true_iff in H as [H _].
    apply trim_nil_iff in H. congruence.
Qed.

Lemma join_labels_nil (labels : list jsstring) :
  join (u16 "+") (map (fun tag => u16 "label:" ++ tag) labels) = [] -> labels = [].
Proof.
  destruct labels as [|a [|b rest]]; simpl; [reflexivity|discriminate|discriminate].
Qed.

(** X1.  Every label that reaches the query is non-empty, holds no comma
    and has no white space at either end. *)
Theorem tagList_labels_clean (raw : jsstring) :
  Forall cleanLabel (tagList raw).
Proof.
  unfold tagList. apply Forall_forall. intros L HL.
  apply filter_In in HL as [HL Hne].
  apply in_map_iff in HL as (seg & <- & Hseg).
  pose proof (split_segments_free (ch ",") raw) as Hfree.
  rewrite Forall_forall in Hfree. specialize (Hfree seg Hseg).
  destruct (trim_trimmed seg) as (l & r & Hs & Hl & Hr & Hhead & Hlast).
  repeat split.
  - intros E. rewrite E in Hne. discriminate.
  - intros Hin. apply Hfree. rewrite Hs.
    apply in_or_app. right. apply in_or_app. now left.
  - apply trimmed_trim. exists [], []. rewrite app_nil_r. repeat split; assumption.
Qed.

(** X2.  The query is empty exactly when the raw text consists of white
    space and commas only. *)
Theorem queryString_nil_iff (raw : jsstring) :
  queryString raw = [] <-> forallb blank raw = true.
Proof.
  rewrite <- tagList_nil_iff. unfold queryString. split.
  - apply join_labels_nil.
  - now intros ->.
Qed.

Lemma tagList_newTags (prev topic : jsstring) :
  cleanLabel topic -> tagList (newTags prev topic) = tagList prev ++ [topic].
Proof.
  intros (Hne & Hcomma & Htrim).
  assert (Hone : tagList topic = [topic]).
  { unfold tagList. rewrite (split_no_sep _ _ Hcomma). simpl. rewrite Htrim.
    destruct topic; [congruence|reflexivity]. }
  unfold newTags. destruct prev as [|c prev]; [exact Hone|].
  simpl truthy_string. cbv iota.
  change (u16 "," ++ topic) with (ch "," :: topic).
  unfold tagList in *. rewrite split_app_sep, map_app, filter_app.
  now rewrite Hone.
Qed.

(** X3.  A click on one of the six topics adds that topic as the last label
    of the query and keeps the labels that were there, duplicates
    included. *)
Theorem topic_click_appends_label (prev : jsstring) :
  Forall (fun topic => tagList (newTags prev topic) = tagList prev ++ [topic])
         trendingTopics.
Proof.
  unfold trendingTopics.
  repeat constructor; apply tagList_newTags; repeat split;
    first [discriminate | reflexivity | (vm_compute; intuition discriminate)].
Qed.

Lemma split_length (s : jsstring) :
  List.length (split (ch ",") s) = S (commas s).
Proof.
  unfold commas. induction s as [|c s IH]; [reflexivity|].
  rewrite split_cons.
  change (filter (N.eqb (ch ",")) (c :: s))
    with (if N.eqb (ch ",") c then c :: filter (N.eqb (ch ",")) s
          else filter (N.eqb (ch ",")) s).
  rewrite (N.eqb_sym (ch ",") c).
  pose proof (split_not_nil (ch ",") s) as Hn.
  destruct (N.eqb c (ch ",")).
  - cbn [List.length]. f_equal. exact IH.
  - destruct (split (ch ",") s); [congruence|exact IH].
Qed.

(** X4.  The badges under the input are one per comma-separated segment,
    so a text with [n] commas shows [n + 1] badges, empty ones included;
    the labels of the query are the non-empty badges. *)
Theorem badges_and_labels (st : State) :
  List.length (badges st)
    = (if truthy_string (tags st) then S (commas (tags st)) else O)
  /\ tagList (tags st) = filter truthy_string (badges st).
Proof.
  unfold badges. destruct (tags st) as [|c t] eqn:E; simpl truthy_string; cbv iota.
  - split; reflexivity.
  - split; [|reflexivity]. rewrite length_map. apply split_length.
Qed.

(** *** The result list, for every input *)

Lemma occurrences_In (k : jsstring) (l : list jsstring) :
  In k l -> (1 <= occurrences k l)%nat.
Proof.
  unfold occurrences. induction l as [|x l IH]; simpl; [intros []|].
  destruct (str_eqb k x) eqn:E; simpl; [lia|].
  apply str_eqb_neq in E. intros [H|H]; [congruence|auto].
Qed.

Lemma occurrences_le (k : jsstring) (l : list jsstring) :
  (occurrences k l <= List.length l)%nat.
Proof. unfold occurrences. apply filter_length_le. Qed.

Lemma StronglySorted_trivial (A : Type) (l : list A) :
  StronglySorted (fun _ _ => True) l.
Proof.
  induction l as [|x l IH]; constructor; [exact IH|].
  apply Forall_forall. auto.
Qed.

Lemma sort_descending (l : list Repo) : descending (sort byCountDesc l).
Proof.
  pose proof (@sort_ranked Repo count (fun _ _ => True) l
                (StronglySorted_trivial Repo l)) as Hs.
  intros l1 a l2 b l3 Heq.
  destruct (StronglySorted_pair _ _ _ _ _ Hs Heq) as [H|[H _]]; lia.
Qed.

(** The shape of what aggregation returns. *)
Lemma aggregate_shape (rho : Realm) (items : list Issue) :
  exists rho' out,
    aggregate rho items = (rho', inr out)
    /\ ranked out
    /\ (List.length out <= List.length items)%nat
    /\ Forall (fun e => (count e <= Z.of_nat (List.length items))%Z) out.
Proof.
  destruct (aggregate_tallied rho items) as (rho' & tbl & Ht & Hagg & _).
  eexists rho', _. split; [exact Hagg|].
  pose proof (aggregate_Permutation tbl) as HP.
  assert (Hin : forall e,
             In e (sort byCountDesc (map toRepo (Object_entries tbl))) ->
             entryOf items e /\ In (repo e) (identifiers items)).
  { intros e He. eapply tallied_entryOf; [exact Ht|].
    eapply Permutation_in; eauto. }
  assert (Hnd : NoDup (map repo (sort byCountDesc (map toRepo (Object_entries tbl))))).
  { eapply Permutation_NoDup;
      [symmetry; apply Permutation_map; exact HP|].
    rewrite map_repo_toRepo. eapply tallied_NoDup; eauto. }
  split; [split; [exact Hnd|split]|split].
  - apply Forall_forall. intros e He.
    destruct (Hin e He) as ((Hc & _) & Hid). rewrite Hc.
    apply occurrences_In in Hid. lia.
  - apply sort_descending.
  - rewrite <- (length_map repo).
    rewrite <- (length_map repoFullName items).
    apply NoDup_incl_length; [exact Hnd|].
    intros k Hk. apply in_map_iff in Hk as (e & <- & He).
    apply (Hin e He).
  - apply Forall_forall. intros e He.
    destruct (Hin e He) as ((Hc & _) & _). rewrite Hc.
    pose proof (occurrences_le (repo e) (identifiers items)) as Hle.
    assert (Hlen : List.length (identifiers items) = List.length items)
      by apply length_map.
    lia.
Qed.

(** X5.  Whatever the records are, aggregation raises no error and returns
    a list with distinct repository names, every count at least 1 and at
    most the number of records, counts in descending order, and no more
    entries than records. *)
Theorem aggregate_always_ranked (rho : Realm) (items : list Issue) :
  exists rho' out,
    aggregate rho items = (rho', inr out)
    /\ NoDup (map repo out)
    /\ Forall (fun e => (1 <= count e <= Z.of_nat (List.length items))%Z) out
    /\ descending out
    /\ (List.length out <= List.length items)%nat.
Proof.
  destruct (aggregate_shape rho items)
    as (rho' & out & Hagg & (Hnd & Hpos & Hdesc) & Hlen & Hle).
  exists rho', out. repeat split; try assumption.
  rewrite Forall_forall in *. intros e He.
  specialize (Hpos e He). specialize (Hle e He). lia.
Qed.

Lemma sumCounts_app (a b : list Repo) :
  sumCounts (a ++ b) = (sumCounts a + sumCounts b)%Z.
Proof. induction a as [|x a IH]; simpl; [reflexivity|]. rewrite IH. lia. Qed.

Lemma sumCounts_Permutation (a b : list Repo) :
  Permutation a b -> sumCounts a = sumCounts b.
Proof. induction 1; simpl; lia. Qed.

Lemma sumCounts_Put (tbl : object Cell) (k : jsstring) (c c' : Cell) :
  assoc k tbl = Some c ->
  sumCounts (map toRepo (Put tbl k c'))
  = (sumCounts (map toRepo tbl) - cell_count c + cell_count c')%Z.
Proof.
  induction tbl as [|[k1 c1] tbl IH]; simpl; [discriminate|].
  destruct (str_eqb k k1); simpl.
  - intros [= ->]. lia.
  - intros H. rewrite (IH H). lia.
Qed.

Lemma isInherited_false (k : jsstring) :
  inherited k = None -> isInherited k = false.
Proof. unfold isInherited. now intros ->. Qed.

Lemma forEach_sum (items done : list Issue) (rho : Realm) (tbl : object Cell) :
  tallied done tbl ->
  exists rho' tbl',
    forEach rho tbl items = (rho', inr tbl')
    /\ tallied (done ++ items) tbl'
    /\ sumCounts (map toRepo tbl')
       = (sumCounts (map toRepo tbl)
          + Z.of_nat (List.length
                        (filter (fun i => negb (isInherited (repoFullName i)))
                                items)))%Z.
Proof.
  revert done rho tbl. induction items as [|i items IH]; intros done rho tbl Ht.
  - exists rho, tbl. rewrite app_nil_r. simpl.
    split; [reflexivity|]. split; [exact Ht|lia].
  - assert (Hstep : exists rho1 tbl1,
               forEach_callback rho tbl i = (rho1, inr tbl1)
               /\ tallied (done ++ [i]) tbl1
               /\ sumCounts (map toRepo tbl1)
                  = (sumCounts (map toRepo tbl)
                     + (if isInherited (repoFullName i) then 0 else 1))%Z).
    { destruct (assoc (repoFullName i) tbl) as [c|] eqn:Ha.
      - eexists _, _. split; [apply callback_seen; exact Ha|].
        split; [now apply tallied_seen|].
        rewrite (sumCounts_Put _ _ _ _ Ha). simpl cell_count.
        assert (Hk : In (repoFullName i) (map fst tbl)).
        { apply in_map_iff. exists (repoFullName i, c).
          split; [reflexivity|now apply assoc_In]. }
        apply (tallied_keys Ht) in Hk as [_ Hk].
        rewrite (isInherited_false _ Hk). lia.
      - destruct (inherited (repoFullName i)) as [b|] eqn:Hb.
        + eexists _, _. split; [apply callback_inherited; eassumption|].
          split; [eapply tallied_inherited; eassumption|].
          unfold isInherited. rewrite Hb. lia.
        + eexists _, _. split; [apply callback_new; assumption|].
          split; [now apply tallied_new|].
          rewrite map_app, sumCounts_app, (isInherited_false _ Hb). simpl. lia. }
    destruct Hstep as (rho1 & tbl1 & Hcb & Ht1 & Hs1).
    destruct (IH _ rho1 _ Ht1) as (rho2 & tbl2 & Hfe & Ht2 & Hs2).
    exists rho2, tbl2. simpl forEach. rewrite Hcb.
    split; [exact Hfe|]. split; [now rewrite <- app_assoc in Ht2|].
    rewrite Hs2, Hs1. simpl filter.
    destruct (isInherited (repoFullName i)); simpl negb; cbv iota;
      simpl List.length; lia.
Qed.

Lemma gitHubUrl_slash (u : jsstring) : gitHubUrl u -> In (ch "/") u.
Proof.
  intros (owner & name & _ & _ & ->). apply in_or_app. left.
  vm_compute. tauto.
Qed.

Lemma gitHub_none_inherited (items : list Issue) :
  Forall (fun i => gitHubUrl (repository_url i)) items ->
  filter (fun i => negb (isInherited (repoFullName i))) items = items.
Proof.
  induction 1 as [|i items Hi _ IH]; simpl; [reflexivity|].
  assert (Hp : inherited (repoFullName i) = None).
  { apply slash_not_inherited, repoFullName_slash, gitHubUrl_slash, Hi. }
  rewrite (isInherited_false _ Hp). simpl. now rewrite IH.
Qed.

(** X6.  The counts of the result add up to the number of records whose
    identifier is not the name of an inherited property; for records with
    GitHub URLs that is the number of records. *)
Theorem counts_add_up (rho : Realm) (items : list Issue) :
  exists rho' out,
    aggregate rho items = (rho', inr out)
    /\ sumCounts out
       = Z.of_nat (List.length
                     (filter (fun i => negb (isInherited (repoFullName i)))
                             items))
    /\ (Forall (fun i => gitHubUrl (repository_url i)) items ->
        sumCounts out = Z.of_nat (List.length items)).
Proof.
  destruct (forEach_sum items [] rho [] tallied_nil)
    as (rho' & tbl & Hfe & _ & Hsum).
  eexists rho', _. split; [unfold aggregate; rewrite Hfe; reflexivity|].
  rewrite (sumCounts_Permutation _ _ (aggregate_Permutation tbl)), Hsum.
  simpl sumCounts. split; [lia|].
  intros Hgit. rewrite (gitHub_none_inherited _ Hgit). lia.
Qed.

Lemma counts_add_up_witness :
  exists rho' out,
    aggregate freshRealm threeIssues = (rho', inr out)
    /\ sumCounts out = 3%Z.
Proof.
  destruct (counts_add_up freshRealm threeIssues) as (rho' & out & Hagg & _ & H).
  exists rho', out. split; [exact Hagg|]. apply H.
  repeat constructor;
    [exists (u16 "a"), (u16 "b") | exists (u16 "a"), (u16 "b")
     | exists (u16 "c"), (u16 "d")];
    (split; [vm_compute; intuition discriminate|]);
    (split; [vm_compute; intuition discriminate|reflexivity]).
Defined.

Lemma gitHubUrl_link (i : Issue) :
  gitHubUrl (repository_url i) ->
  webUrl i = u16 "https://github.com/" ++ repoFullName i.
Proof.
  destruct i as [u]. simpl. intros (owner & name & Ho & Hn & ->).
  change (u16 "https://api.github.com/repos/" ++ owner ++ u16 "/" ++ name)
    with (u16 "https://api.github.com/repos" ++ u16 "/" ++ owner ++ u16 "/" ++ name).
  rewrite repoFullName_last_two by assumption.
  rewrite webUrl_github. reflexivity.
Qed.

(** X7.  For records with GitHub URLs, every entry of the result links to
    the page of its own repository: its link is [https://github.com/]
    followed by its name. *)
Theorem entries_link_to_repository (rho : Realm) (items : list Issue) :
  Forall (fun i => gitHubUrl (repository_url i)) items ->
  exists rho' out,
    aggregate rho items = (rho', inr out)
    /\ Forall (fun e => url e = u16 "https://github.com/" ++ repo e) out.
Proof.
  intros Hgit.
  destruct (aggregate_tallied rho items) as (rho' & tbl & Ht & Hagg & _).
  eexists rho', _. split; [exact Hagg|].
  apply Forall_forall. intros e He.
  assert (Hin : In e (map toRepo tbl)).
  { eapply Permutation_in; [apply aggregate_Permutation|exact He]. }
  destruct (@tallied_entryOf items tbl e Ht Hin) as ((_ & first & Hfirst & Hurl) & _).
  unfold firstRecord in Hfirst. apply find_some in Hfirst as [Hmem Hname].
  apply str_eqb_eq in Hname. rewrite Hurl, <- Hname.
  apply gitHubUrl_link. rewrite Forall_forall in Hgit. now apply Hgit.
Qed.

Lemma entries_link_to_repository_witness :
  exists rho' out,
    aggregate freshRealm threeIssues = (rho', inr out)
    /\ Forall (fun e => url e = u16 "https://github.com/" ++ repo e) out.
Proof.
  apply (entries_link_to_repository freshRealm threeIssues).
  repeat constructor;
    [exists (u16 "a"), (u16 "b") | exists (u16 "a"), (u16 "b")
     | exists (u16 "c"), (u16 "d")];
    (split; [vm_compute; intuition discriminate|]);
    (split; [vm_compute; intuition discriminate|reflexivity]).
Defined.

(** *** The fetch cycle and the events that start it *)

Lemma failed_dec (r : outcome) :
  failed r
  \/ exists status items, r = Response status (Some items) /\ ok status = true.
Proof.
  destruct r as [|status [items|]]; simpl; [now left| |left; now right].
  destruct (ok status) eqn:E; [right; now exists status, items|left; now left].
Qed.

(** X8.  One fetch cycle, from its start to its end, always leaves
    [loading] false; it leaves no error message exactly when the response
    has a success status and a well-formed body, so no list of issue
    records can make the cycle end in the error message; the label text and
    the page index are the ones it started with. *)
Theorem fetch_cycle_result (st : State) (rho : Realm) (r : outcome) :
  let st' := fst (fetchSettle (fst (fetchStart st)) rho r) in
  loading st' = false
  /\ (error st' = None <-> ~ failed r)
  /\ tags st' = tags st
  /\ currentPage st' = currentPage st.
Proof.
  destruct (failed_dec r) as [Hf|(status & items & -> & Hok)].
  - cbv zeta. rewrite (fetchSettle_failed _ rho r Hf). simpl.
    repeat split; try discriminate. tauto.
  - destruct (successful_fetch_replaces_repos (fst (fetchStart st)) rho
                status items Hok) as (rho' & out & _ & ->).
    simpl. repeat split; try reflexivity.
    intros _ [H|H]; congruence.
Qed.

(** X9.  Typing in the input stores the text and changes nothing else of
    what is shown; it sends a request, at once and for that text, exactly
    when the text is non-empty and differs from the previous one. *)
Theorem change_fetches_when_text_differs (st : State) (rho : Realm)
    (text : jsstring) :
  let '(st', rho', sent) := step st rho (Change text) in
  tags st' = text /\ rho' = rho
  /\ repos st' = repos st /\ currentPage st' = currentPage st
  /\ (sent = [] <-> text = [] \/ text = tags st)
  /\ (sent = [] \/ (sent = [requestUrl text] /\ loading st' = true
                    /\ error st' = None)).
Proof.
  unfold step, handleChange, tagsEffect. simpl tags.
  destruct (str_eqb (tags st) text) eqn:E; simpl negb.
  - apply str_eqb_eq in E. simpl. repeat split; auto.
  - apply str_eqb_neq in E. destruct text as [|c t]; simpl.
    + repeat split; auto.
    + repeat split; auto; try discriminate.
      intros [H|H]; [discriminate|congruence].
Qed.

(** X10.  A submitted search always sends exactly one request, also when
    the label text holds no label: the request then carries an empty
    query. *)
Theorem submit_blank_sends_empty_query (st : State) (rho : Realm) :
  forallb blank (tags st) = true ->
  snd (step st rho Submit)
  = [u16 "https://api.github.com/search/issues?q=&per_page=100"].
Proof.
  intros Hblank. simpl. unfold requestUrl, queryString.
  rewrite (proj2 (tagList_nil_iff (tags st)) Hblank). reflexivity.
Qed.

Lemma submit_blank_sends_empty_query_witness :
  snd (step initialState freshRealm Submit)
  = [u16 "https://api.github.com/search/issues?q=&per_page=100"].
Proof.
  apply (submit_blank_sends_empty_query initialState freshRealm). reflexivity.
Defined.

(** *** Pages *)

Lemma firstn_add_skipn (A : Type) (a b : nat) (l : list A) :
  firstn (a + b) l = firstn a l ++ firstn b (skipn a l).
Proof.
  revert l. induction a as [|a IH]; intros l; [reflexivity|].
  destruct l as [|x l]; simpl; [now rewrite firstn_nil|].
  now rewrite IH.
Qed.

Lemma pages_concat (l : list Repo) (n : nat) :
  List.concat (map (fun p => paginate l (Z.of_nat p)) (seq 1 n)) = firstn (n * 10) l.
Proof.
  induction n as [|n IH]; [reflexivity|].
  rewrite seq_S, map_app, List.concat_app, IH. cbn [map List.concat].
  rewrite app_nil_r, paginate_window by lia.
  replace (Z.to_nat ((Z.of_nat (1 + n) - 1) * 10)) with (n * 10)%nat by lia.
  replace (S n * 10)%nat with (n * 10 + 10)%nat by lia.
  symmetry. apply firstn_add_skipn.
Qed.

Lemma totalPages_bounds (st : State) :
  ((totalPages st - 1) * 10 < Z.of_nat (List.length (repos st))
   <= totalPages st * 10)%Z.
Proof. apply (Math_ceil_div_spec _ 10). lia. Qed.

(** X11.  The pages 1 to [totalPages], one after the other, are the result
    list: every result is on exactly one page and the order is kept. *)
Theorem pages_partition_results (st : State) :
  List.concat (map (paginate (repos st)) (pageNumbers st)) = repos st.
Proof.
  unfold pageNumbers. rewrite map_map, pages_concat.
  apply firstn_all2. pose proof (totalPages_bounds st). lia.
Qed.

Lemma paginate_length (l : list Repo) (p : Z) :
  (1 <= p)%Z ->
  List.length (paginate l p)
  = Nat.min 10 (List.length l - Z.to_nat ((p - 1) * 10)).
Proof.
  intros Hp. rewrite (paginate_window _ _ Hp), length_firstn, length_skipn.
  reflexivity.
Qed.

(** X12.  With the page index at least 1, the page shown holds ten results,
    or the rest of the list if fewer are left; it is empty exactly when the
    page index is beyond [totalPages]. *)
Theorem page_size_and_emptiness (st : State) :
  (1 <= currentPage st)%Z ->
  Z.of_nat (List.length (paginatedRepos st))
  = Z.max 0 (Z.min 10 (Z.of_nat (List.length (repos st))
                       - (currentPage st - 1) * 10))
  /\ (paginatedRepos st = [] <-> (totalPages st < currentPage st)%Z).
Proof.
  intros Hp. unfold paginatedRepos.
  pose proof (paginate_length (repos st) _ Hp) as Hlen.
  pose proof (totalPages_bounds st) as Hb.
  split; [lia|].
  rewrite <- length_zero_iff_nil. lia.
Qed.

Lemma page_size_and_emptiness_witness :
  (1 <= currentPage twentyFive)%Z
  /\ Z.of_nat (List.length (paginatedRepos twentyFive)) = 10%Z.
Proof.
  assert (Hp : (1 <= currentPage twentyFive)%Z) by (simpl; lia).
  split; [exact Hp|].
  exact (proj1 (page_size_and_emptiness twentyFive Hp)).
Defined.

Lemma pagerShown_two_pages (st : State) :
  pagerShown st = true <-> (2 <= totalPages st)%Z.
Proof.
  pose proof (totalPages_bounds st) as Hb.
  unfold pagerShown, ITEMS_PER_PAGE. rewrite Z.ltb_lt. lia.
Qed.

(** X13.  The table is rendered exactly when there is at least one page,
    and the pager exactly when there are at least two. *)
Theorem table_and_pager_shown (st : State) :
  (tableShown st = true <-> (1 <= totalPages st)%Z)
  /\ (pagerShown st = true <-> (2 <= totalPages st)%Z).
Proof.
  split; [|apply pagerShown_two_pages].
  pose proof (totalPages_bounds st) as Hb.
  unfold tableShown. rewrite Z.ltb_lt. lia.
Qed.

Lemma setCurrentPage_back (st : State) (p : Z) :
  setCurrentPage (currentPage st) (setCurrentPage p st) = st.
Proof. destruct st; reflexivity. Qed.

(** X14.  With the pager rendered, Next followed by Previous returns to
    the same state from every page but the last, and Previous followed by
    Next from every page but the first. *)
Theorem next_previous_round_trip (st : State) :
  pagerShown st = true ->
  ((1 <= currentPage st < totalPages st)%Z -> clickPrevious (clickNext st) = st)
  /\ ((1 < currentPage st <= totalPages st)%Z -> clickNext (clickPrevious st) = st).
Proof.
  intros Hshown. split; intros Hrange.
  - unfold clickNext, nextDisabled. rewrite Hshown.
    replace (currentPage st =? totalPages st)%Z with false by lia. simpl.
    rewrite Z.min_l by lia.
    unfold clickPrevious, previousDisabled.
    change (pagerShown (setCurrentPage (currentPage st + 1) st))
      with (pagerShown st).
    rewrite Hshown. simpl currentPage.
    replace (currentPage st + 1 =? 1)%Z with false by lia. simpl.
    replace (Z.max (currentPage st + 1 - 1) 1) with (currentPage st) by lia.
    apply setCurrentPage_back.
  - unfold clickPrevious, previousDisabled. rewrite Hshown.
    replace (currentPage st =? 1)%Z with false by lia. simpl.
    rewrite Z.max_l by lia.
    unfold clickNext, nextDisabled.
    change (pagerShown (setCurrentPage (currentPage st - 1) st))
      with (pagerShown st).
    change (totalPages (setCurrentPage (currentPage st - 1) st))
      with (totalPages st).
    rewrite Hshown. simpl currentPage.
    replace (currentPage st - 1 =? totalPages st)%Z with false by lia. simpl.
    replace (Z.min (currentPage st - 1 + 1) (totalPages st))
      with (currentPage st) by lia.
    apply setCurrentPage_back.
Qed.

Lemma next_previous_round_trip_witness :
  clickPrevious (clickNext twentyFive) = twentyFive
  /\ clickNext (clickPrevious twentyFive) = twentyFive.
Proof.
  assert (Hshown : pagerShown twentyFive = true) by reflexivity.
  destruct (next_previous_round_trip twentyFive Hshown) as [H1 H2].
  split; [apply H1|apply H2]; vm_compute; split; congruence.
Defined.

(** X15.  A page index left beyond [totalPages] by a search that was not
    submitted is repaired by Next only: with the pager rendered Next goes
    to the last page and Previous goes one page down; without the pager
    neither button exists and the index stays where it is. *)
Theorem stale_page_navigation (st : State) :
  (totalPages st < currentPage st)%Z ->
  (pagerShown st = true ->
     currentPage (clickNext st) = totalPages st
     /\ currentPage (clickPrevious st) = (currentPage st - 1)%Z)
  /\ (pagerShown st = false -> clickNext st = st /\ clickPrevious st = st).
Proof.
  intros Hstale. split; intros Hshown.
  - pose proof (proj1 (pagerShown_two_pages st) Hshown) as Htwo.
    unfold clickNext, clickPrevious, nextDisabled, previousDisabled.
    rewrite Hshown.
    replace (currentPage st =? totalPages st)%Z with false by lia.
    replace (currentPage st =? 1)%Z with false by lia.
    simpl. lia.
  - unfold clickNext, clickPrevious. now rewrite Hshown.
Qed.

Lemma stale_page_navigation_witness :
  currentPage (clickNext (setCurrentPage 7 twentyFive)) = 3%Z.
Proof.
  assert (Hstale : (totalPages (setCurrentPage 7 twentyFive)
                    < currentPage (setCurrentPage 7 twentyFive))%Z)
    by (vm_compute; reflexivity).
  destruct (stale_page_navigation (setCurrentPage 7 twentyFive) Hstale) as [H _].
  exact (proj1 (H eq_refl)).
Defined.

(** *** Sessions *)

Lemma tagsEffect_keeps (old : jsstring) (st : State) :
  repos (fst (tagsEffect old st)) = repos st
  /\ currentPage (fst (tagsEffect old st)) = currentPage st.
Proof.
  unfold tagsEffect.
  destruct (negb (str_eqb old (tags st)) && truthy_string (tags st)); now split.
Qed.

Lemma fetchSettle_repos (st : State) (rho : Realm) (r : outcome) :
  ranked (repos st) -> ranked (repos (fst (fetchSettle st rho r))).
Proof.
  intros Hst. destruct (failed_dec r) as [Hf|(status & items & -> & Hok)].
  - now rewrite (fetchSettle_failed st rho _ Hf).
  - unfold fetchSettle. simpl tryBlock. rewrite Hok. simpl negb. cbv iota.
    destruct (aggregate_shape rho items) as (rho' & out & -> & Hr & _).
    exact Hr.
Qed.

Lemma step_keeps_invariant (st : State) (rho : Realm) (e : event) :
  (1 <= currentPage st)%Z /\ ranked (repos st) ->
  (1 <= currentPage (fst (fst (step st rho e))))%Z
  /\ ranked (repos (fst (fst (step st rho e)))).
Proof.
  intros [Hp Hr]. destruct e as [text| |topic|r| |]; unfold step.
  - unfold handleChange.
    destruct (tagsEffect_keeps (tags st) (setTags text st)) as [H1 H2].
    destruct (tagsEffect (tags st) (setTags text st)) as [st' sent].
    simpl in *. now rewrite H1, H2.
  - simpl. split; [lia|exact Hr].
  - unfold handleTrendingTopicClick.
    destruct (tagsEffect_keeps (tags st) (setTags (newTags (tags st) topic) st))
      as [H1 H2].
    destruct (tagsEffect (tags st) (setTags (newTags (tags st) topic) st))
      as [st' sent].
    simpl in *. now rewrite H1, H2.
  - pose proof (fetchSettle_currentPage st rho r) as H1.
    pose proof (fetchSettle_repos st rho r Hr) as H2.
    destruct (fetchSettle st rho r) as [st' rho']. simpl in *.
    split; [lia|exact H2].
  - simpl. unfold clickPrevious.
    destruct (pagerShown st && negb (previousDisabled st)); simpl;
      split; try lia; exact Hr.
  - simpl. unfold clickNext.
    destruct (pagerShown st && negb (nextDisabled st)) eqn:E; simpl;
      split; try lia; try exact Hr.
    apply andb_true_iff in E as [E _].
    apply pagerShown_two_pages in E. lia.
Qed.

(** X16.  In every state a session can reach from the first render,
    whatever events and responses occur, the page index is at least 1 and
    the stored results have distinct repository names (the row keys),
    counts of at least 1, and descending counts. *)
Theorem session_invariant (events : list event) :
  let st := fst (fst (run initialState freshRealm events)) in
  (1 <= currentPage st)%Z /\ ranked (repos st).
Proof.
  cbv zeta.
  assert (H : forall es st rho,
             (1 <= currentPage st)%Z /\ ranked (repos st) ->
             (1 <= currentPage (fst (fst (run st rho es))))%Z
             /\ ranked (repos (fst (fst (run st rho es))))).
  { induction es as [|e es IH]; intros st rho Hinv; [exact Hinv|].
    simpl run. pose proof (step_keeps_invariant st rho e Hinv) as Hstep.
    destruct (step st rho e) as [[st1 rho1] sent1]. simpl in Hstep.
    specialize (IH st1 rho1 Hstep).
    destruct (run st1 rho1 es) as [[st2 rho2] sent2]. exact IH. }
  apply H. simpl. split; [lia|].
  repeat split; [constructor|constructor|].
  intros l1 a l2 b l3 Heq. destruct l1; discriminate.
Qed.

(** X17.  A submitted search whose response is a success shows the first
    ten entries of the aggregated list (all of them if there are fewer), on
    page 1, with no error message and [loading] false; exactly one request
    was sent, for the label text at the time of the submission. *)
Theorem submit_then_success (st : State) (rho : Realm)
    (status : Z) (items : list Issue) :
  ok status = true ->
  exists out,
    snd (aggregate rho items) = inr out
    /\ let '(st', _, sent) :=
         run st rho [Submit; Settled (Response status (Some items))] in
       repos st' = out
       /\ rows st' = firstn 10 out
       /\ currentPage st' = 1%Z
       /\ loading st' = false
       /\ error st' = None
       /\ sent = [requestUrl (tags st)].
Proof.
  intros Hok.
  destruct (aggregate_shape rho items) as (rho' & out & Hagg & _).
  exists out. split; [now rewrite Hagg|].
  simpl run. unfold fetchSettle. simpl tryBlock. rewrite Hok. simpl negb.
  cbv iota. rewrite Hagg. simpl.
  repeat split.
  unfold rows, tableShown, paginatedRepos. simpl.
  rewrite paginate_window by lia. simpl skipn.
  destruct out; reflexivity.
Qed.

Lemma submit_then_success_witness :
  exists out,
    snd (aggregate freshRealm threeIssues) = inr out
    /\ let '(st', _, sent) :=
         run afterSearch freshRealm
             [Submit; Settled (Response 200 (Some threeIssues))] in
       repos st' = out
       /\ rows st' = firstn 10 out
       /\ currentPage st' = 1%Z
       /\ loading st' = false
       /\ error st' = None
       /\ sent = [requestUrl (tags afterSearch)].
Proof.
  apply (submit_then_success afterSearch freshRealm 200 threeIssues).
  reflexivity.
Defined.
